(** * RSA demo firmware for the Wio Terminal (src/main.cpp)

    The sketch loads a DER key pair from the SD card, encrypts a fixed
    message with mbedtls, decrypts it again and reports on the serial
    console.  The statements of [setup] are embedded as a transition
    function over program points named after their source lines; the
    SD card, the serial port and mbedtls are the environment. *)

From Stdlib Require Import ZArith List String Ascii Bool Lia DecimalString.
From Stdlib Require Import Strings.Byte.
Import ListNotations.

Local Open Scope string_scope.
Local Open Scope list_scope.
Local Open Scope Z_scope.

(** ** Constants of the sketch *)

Definition bytes := list byte.

Definition RSA_KEY_SIZE : Z := 2048.
Definition MAX_MESSAGE_LENGTH : Z := 100.
Definition MAX_ENCRYPTED_LENGTH : Z := 256.

Definition PRIVATE_KEY_FILE : string := "/private.der".
Definition PUBLIC_KEY_FILE : string := "/public.der".

Definition message : string := "Hello, Wio Terminal with RSA encryption!".

(** [const char *pers = "rsa_encrypt"] *)
Definition pers : string := "rsa_encrypt".

(** [sizeof(public_key_buf)] and [sizeof(private_key_buf)] *)
Definition KEY_BUF_SIZE : Z := 2048.

(** [sizeof(error_buf)] in [displayRsaStatus] *)
Definition ERROR_BUF_SIZE : Z := 100.

(** ** Memory and text helpers *)

(** [size_t] and [uint32_t] are 32 bits wide on the SAMD51. *)
Definition size_t (n : Z) : Z := n mod 2 ^ 32.

Definition zeros (n : Z) : bytes := repeat x00 (Z.to_nat n).

(** Number of elements of an array. *)
Definition capacity (a : bytes) : Z := Z.of_nat (List.length a).

(** [strlen] of a string constant. *)
Definition strlen (s : string) : Z := Z.of_nat (String.length s).

(** The [n] bytes a callee may read through a pointer to array [a]. *)
Definition window (a : bytes) (n : Z) : bytes := firstn (Z.to_nat n) a.

(** Writing [src] at the start of array [dst]. *)
Definition overlay (src dst : bytes) : bytes := src ++ skipn (List.length src) dst.

(** [a[i] = v] for an index inside the array. *)
Fixpoint store (a : bytes) (i : nat) (v : byte) : bytes :=
  match a, i with
  | [], _ => []
  | _ :: r, O => v :: r
  | x :: r, S j => x :: store r j v
  end.

(** The C string starting at the first byte of [a]. *)
Fixpoint c_str (a : bytes) : bytes :=
  match a with
  | [] => []
  | x :: r => if Byte.eqb x x00 then [] else x :: c_str r
  end.

Definition hex_digit (n : N) : ascii :=
  match String.get (N.to_nat n) "0123456789ABCDEF" with
  | Some c => c
  | None => "0"%char
  end.

(** [sprintf(hex, "%02X", b)] *)
Definition hex2 (b : byte) : string :=
  let n := Byte.to_N b in
  String (hex_digit (n / 16)) (String (hex_digit (n mod 16)) EmptyString).

(** [Serial.print] of an unsigned number. *)
Definition dec (n : Z) : string := NilZero.string_of_uint (N.to_uint (Z.to_N n)).

(** ** The environment *)

(** The board: the serial port and the SD card.  The files on the card
    do not change while the sketch runs, but any single call of
    [SD.open] may fail. *)
Record Board : Type := {
  (** answer of the k-th test of [Serial] in the start-up wait *)
  serial_ready : nat -> bool;
  (** result of [SD.begin] *)
  sd_begin : bool;
  (** the files on the card *)
  sd_files : string -> option bytes;
  (** whether the i-th call of [SD.open] in the run goes through *)
  sd_open_ok : nat -> bool
}.

(** [SD.open(path, FILE_READ)] as the [call]-th open of the run: the
    file's content, [None] for a [File] that tests false. *)
Definition sd_open (B : Board) (call : nat) (path : string) : option bytes :=
  if sd_open_ok B call then sd_files B path else None.

(** The mbedtls entry points the sketch calls.  A byte input is passed as
    the bytes readable at the pointer together with the length argument;
    an output is the list of bytes written, whose length is stored in
    [*olen].  The written bytes only matter when the call returns 0. *)
Record Mbedtls : Type := {
  pk_context : Type;
  ctr_drbg_context : Type;
  (** the context after [mbedtls_pk_init] *)
  mbedtls_pk_init : pk_context;
  (** the generator after [mbedtls_entropy_init] and [mbedtls_ctr_drbg_init] *)
  mbedtls_ctr_drbg_init : ctr_drbg_context;
  (** seeding with [mbedtls_entropy_func] and the personalisation string *)
  mbedtls_ctr_drbg_seed : ctr_drbg_context -> bytes -> Z -> Z * ctr_drbg_context;
  mbedtls_pk_parse_public_key : pk_context -> bytes -> Z -> Z * pk_context;
  (** [mbedtls_pk_parse_key] with password [NULL, 0] *)
  mbedtls_pk_parse_key : pk_context -> bytes -> Z -> Z * pk_context;
  (** context, input, ilen, osize, generator *)
  mbedtls_pk_encrypt :
    pk_context -> bytes -> Z -> Z -> ctr_drbg_context -> Z * bytes * ctr_drbg_context;
  mbedtls_pk_decrypt :
    pk_context -> bytes -> Z -> Z -> ctr_drbg_context -> Z * bytes * ctr_drbg_context;
  (** [mbedtls_strerror(ret, buf, buflen)]: the text left in [buf] *)
  mbedtls_strerror : Z -> Z -> string;
  (** [mbedtls_pk_get_bitlen]: size of the key held by a context *)
  mbedtls_pk_get_bitlen : pk_context -> Z
}.

(** ** Observable history *)

Inductive event : Type :=
| Print (text : string)                 (* Serial.print *)
| Println (text : string)               (* Serial.println *)
| SdBegin (ok : bool)
| SdOpen (call : nat) (path : string) (ok : bool)
| Seed (ret : Z)
| ParsePublicKey (key : bytes) (keylen : Z) (ret : Z)
| ParseKey (key : bytes) (keylen : Z) (ret : Z)
| Encrypt (input : bytes) (ilen : Z) (out_capacity : Z) (osize : Z) (ret : Z) (olen : Z)
| Decrypt (input : bytes) (ilen : Z) (out_capacity : Z) (osize : Z) (ret : Z) (olen : Z).

(** Operations C or the file library give no meaning: [size()] of a
    [File] that failed to open, and accesses outside an array. *)
Inductive fault : Type :=
| SizeOfUnopenedFile (path : string)
| WriteBeyondEncrypted (olen : Z)
| WriteBeyondDecrypted (olen : Z)
| StoreBeyondDecrypted (index : Z).

(** Program points, named after the source line they start at.
    [L46 k] is the k-th test of the start-up wait, [Spin l] the
    [while (1);] at line [l], [L190] the body of [loop]. *)
Inductive label : Type :=
| L46 (k : nat)
| L51 | L54 | L77 | L82 | L87 | L96 | L105 | L109 | L113 | L119 | L128
| L136 | L144 | L153 | L163 | L173 | L176 | L190
| Spin (at_line : Z)
| Fault (f : fault).

Section Sketch.

Variable L : Mbedtls.
Variable B : Board.

(** The locals of [setup]. *)
Record state : Type := mkState {
  public_key_buf : bytes;
  private_key_buf : bytes;
  encrypted : bytes;
  decrypted : bytes;
  pk_ctx_pub : pk_context L;
  pk_ctx_priv : pk_context L;
  ctr_drbg : ctr_drbg_context L;
  encrypted_length : Z;
  decrypted_length : Z;
  ret : Z;
  pubKeySize : Z;
  privKeySize : Z;
  log : list event
}.

Definition set_public_key_buf (s : state) (v : bytes) : state :=
  mkState v (private_key_buf s) (encrypted s) (decrypted s) (pk_ctx_pub s)
    (pk_ctx_priv s) (ctr_drbg s) (encrypted_length s) (decrypted_length s)
    (ret s) (pubKeySize s) (privKeySize s) (log s).

Definition set_private_key_buf (s : state) (v : bytes) : state :=
  mkState (public_key_buf s) v (encrypted s) (decrypted s) (pk_ctx_pub s)
    (pk_ctx_priv s) (ctr_drbg s) (encrypted_length s) (decrypted_length s)
    (ret s) (pubKeySize s) (privKeySize s) (log s).

Definition set_encrypted (s : state) (v : bytes) : state :=
  mkState (public_key_buf s) (private_key_buf s) v (decrypted s) (pk_ctx_pub s)
    (pk_ctx_priv s) (ctr_drbg s) (encrypted_length s) (decrypted_length s)
    (ret s) (pubKeySize s) (privKeySize s) (log s).

Definition set_decrypted (s : state) (v : bytes) : state :=
  mkState (public_key_buf s) (private_key_buf s) (encrypted s) v (pk_ctx_pub s)
    (pk_ctx_priv s) (ctr_drbg s) (encrypted_length s) (decrypted_length s)
    (ret s) (pubKeySize s) (privKeySize s) (log s).

Definition set_pk_ctx_pub (s : state) (v : pk_context L) : state :=
  mkState (public_key_buf s) (private_key_buf s) (encrypted s) (decrypted s) v
    (pk_ctx_priv s) (ctr_drbg s) (encrypted_length s) (decrypted_length s)
    (ret s) (pubKeySize s) (privKeySize s) (log s).

Definition set_pk_ctx_priv (s : state) (v : pk_context L) : state :=
  mkState (public_key_buf s) (private_key_buf s) (encrypted s) (decrypted s)
    (pk_ctx_pub s) v (ctr_drbg s) (encrypted_length s) (decrypted_length s)
    (ret s) (pubKeySize s) (privKeySize s) (log s).

Definition set_ctr_drbg (s : state) (v : ctr_drbg_context L) : state :=
  mkState (public_key_buf s) (private_key_buf s) (encrypted s) (decrypted s)
    (pk_ctx_pub s) (pk_ctx_priv s) v (encrypted_length s) (decrypted_length s)
    (ret s) (pubKeySize s) (privKeySize s) (log s).

Definition set_encrypted_length (s : state) (v : Z) : state :=
  mkState (public_key_buf s) (private_key_buf s) (encrypted s) (decrypted s)
    (pk_ctx_pub s) (pk_ctx_priv s) (ctr_drbg s) v (decrypted_length s)
    (ret s) (pubKeySize s) (privKeySize s) (log s).

Definition set_decrypted_length (s : state) (v : Z) : state :=
  mkState (public_key_buf s) (private_key_buf s) (encrypted s) (decrypted s)
    (pk_ctx_pub s) (pk_ctx_priv s) (ctr_drbg s) (encrypted_length s) v
    (ret s) (pubKeySize s) (privKeySize s) (log s).

Definition set_ret (s : state) (v : Z) : state :=
  mkState (public_key_buf s) (private_key_buf s) (encrypted s) (decrypted s)
    (pk_ctx_pub s) (pk_ctx_priv s) (ctr_drbg s) (encrypted_length s)
    (decrypted_length s) v (pubKeySize s) (privKeySize s) (log s).

Definition set_pubKeySize (s : state) (v : Z) : state :=
  mkState (public_key_buf s) (private_key_buf s) (encrypted s) (decrypted s)
    (pk_ctx_pub s) (pk_ctx_priv s) (ctr_drbg s) (encrypted_length s)
    (decrypted_length s) (ret s) v (privKeySize s) (log s).

Definition set_privKeySize (s : state) (v : Z) : state :=
  mkState (public_key_buf s) (private_key_buf s) (encrypted s) (decrypted s)
    (pk_ctx_pub s) (pk_ctx_priv s) (ctr_drbg s) (encrypted_length s)
    (decrypted_length s) (ret s) (pubKeySize s) v (log s).

(** Appending to the history. *)
Definition emit (s : state) (evs : list event) : state :=
  mkState (public_key_buf s) (private_key_buf s) (encrypted s) (decrypted s)
    (pk_ctx_pub s) (pk_ctx_priv s) (ctr_drbg s) (encrypted_length s)
    (decrypted_length s) (ret s) (pubKeySize s) (privKeySize s) (log s ++ evs).

(** [file.readBytes(buffer, count)] on a freshly opened file: the number
    of bytes read and the buffer afterwards. *)
Definition readBytes (content buffer : bytes) (count : Z) : Z * bytes :=
  let got := window content count in
  (capacity got, overlay got buffer).

(** [loadKeyFromSD], whose [SD.open] is the [call]-th of the run: the
    result, the buffer afterwards and what it did. *)
Definition loadKeyFromSD (call : nat) (filename : string) (buffer : bytes)
  (buffer_size : Z) : bool * bytes * list event :=
  match sd_open B call filename with
  | None =>
      (false, buffer,
       [SdOpen call filename false; Print "Failed to open file: ";
        Println filename])
  | Some content =>
      let '(bytes_read, buffer') := readBytes content buffer buffer_size in
      (0 <? bytes_read, buffer',
       [SdOpen call filename true; Print "Loaded "; Print (dec bytes_read);
        Print " bytes from "; Println filename])
  end.

(** [displayRsaStatus] *)
Definition displayRsaStatus (ret_val : Z) : list event :=
  [Println (mbedtls_strerror L ret_val ERROR_BUF_SIZE)].

Definition banner : string :=
  String "010"%char "Wio Terminal RSA Encryption Demo Starting...".

(** The hex dump of lines 154-158. *)
Definition hex_dump (a : bytes) (n : Z) : list event :=
  map (fun b => Print (hex2 b)) (window a n).

Definition config : Type := label * state.

(** One transition of the sketch: the statements from one program point
    to the next, a failed test leading to the [while (1);] of its branch. *)
Definition step (c : config) : config :=
  let s := snd c in
  match fst c with
  | L46 k =>                                    (* while (!Serial) delay(100); *)
      if serial_ready B k then (L51, s) else (L46 (S k), s)
  | L51 =>
      (L54, emit s [Println banner])
  | L54 =>                                      (* SD.begin, lines 54-58 *)
      if sd_begin B
      then (L77, emit s [SdBegin true; Println "SD card initialized successfully."])
      else (Spin 56, emit s [SdBegin false; Println "SD card initialization failed!"])
  | L77 =>                                      (* lines 77-80 *)
      let '(ok, buf, evs) :=
        loadKeyFromSD 0 PUBLIC_KEY_FILE (public_key_buf s) KEY_BUF_SIZE in
      let s1 := emit (set_public_key_buf s buf) evs in
      if ok then (L82, s1)
      else (Spin 79, emit s1 [Println "Failed to load public key!"])
  | L82 =>                                      (* lines 82-85 *)
      let '(ok, buf, evs) :=
        loadKeyFromSD 1 PRIVATE_KEY_FILE (private_key_buf s) KEY_BUF_SIZE in
      let s1 := emit (set_private_key_buf s buf) evs in
      if ok then (L87, s1)
      else (Spin 84, emit s1 [Println "Failed to load private key!"])
  | L87 =>                                      (* lines 87-93 *)
      let s1 := emit s [Println "Keys loaded successfully!"] in
      let s2 := set_pk_ctx_priv (set_pk_ctx_pub s1 (mbedtls_pk_init L))
                  (mbedtls_pk_init L) in
      (L96, set_ctr_drbg s2 (mbedtls_ctr_drbg_init L))
  | L96 =>                                      (* lines 96-102 *)
      let '(r, g) :=
        mbedtls_ctr_drbg_seed L (ctr_drbg s) (list_byte_of_string pers) (strlen pers) in
      let s1 := emit (set_ret (set_ctr_drbg s g) r) [Seed r] in
      if r =? 0 then (L105, s1)
      else (Spin 101,
            emit s1 (Print "Failed to seed random number generator: "
                       :: displayRsaStatus r))
  | L105 =>                                     (* lines 105-107, no test *)
      match sd_open B 2 PUBLIC_KEY_FILE with
      | Some content =>
          (L109, set_pubKeySize (emit s [SdOpen 2 PUBLIC_KEY_FILE true])
                   (size_t (capacity content)))
      | None =>
          (Fault (SizeOfUnopenedFile PUBLIC_KEY_FILE),
           emit s [SdOpen 2 PUBLIC_KEY_FILE false])
      end
  | L109 =>                                     (* lines 109-111, no test *)
      match sd_open B 3 PRIVATE_KEY_FILE with
      | Some content =>
          (L113, set_privKeySize (emit s [SdOpen 3 PRIVATE_KEY_FILE true])
                   (size_t (capacity content)))
      | None =>
          (Fault (SizeOfUnopenedFile PRIVATE_KEY_FILE),
           emit s [SdOpen 3 PRIVATE_KEY_FILE false])
      end
  | L113 =>
      (L119, emit s [Print "Public key size: "; Println (dec (pubKeySize s));
                     Print "Private key size: "; Println (dec (privKeySize s))])
  | L119 =>                                     (* lines 119-125 *)
      let key := window (public_key_buf s) (pubKeySize s) in
      let '(r, k) :=
        mbedtls_pk_parse_public_key L (pk_ctx_pub s) key (pubKeySize s) in
      let s1 := emit (set_ret (set_pk_ctx_pub s k) r)
                  [ParsePublicKey key (pubKeySize s) r] in
      if r =? 0 then (L128, s1)
      else (Spin 124, emit s1 (Print "Failed to parse public key: "
                                 :: displayRsaStatus r))
  | L128 =>                                     (* lines 128-134 *)
      let key := window (private_key_buf s) (privKeySize s) in
      let '(r, k) :=
        mbedtls_pk_parse_key L (pk_ctx_priv s) key (privKeySize s) in
      let s1 := emit (set_ret (set_pk_ctx_priv s k) r)
                  [ParseKey key (privKeySize s) r] in
      if r =? 0 then (L136, s1)
      else (Spin 133, emit s1 (Print "Failed to parse private key: "
                                 :: displayRsaStatus r))
  | L136 =>
      (L144, emit s [Println "Keys parsed successfully!";
                     Print "Original message: "; Println message;
                     Println "Encrypting..."])
  | L144 =>                                     (* lines 144-151 *)
      let input := list_byte_of_string message in
      let ilen := strlen message in
      let '(r, out, g) :=
        mbedtls_pk_encrypt L (pk_ctx_pub s) input ilen MAX_ENCRYPTED_LENGTH
          (ctr_drbg s) in
      let olen := capacity out in
      let s1 := emit (set_ret (set_ctr_drbg s g) r)
                  [Encrypt input ilen (capacity (encrypted s))
                     MAX_ENCRYPTED_LENGTH r olen] in
      if r =? 0 then
        if olen <=? capacity (encrypted s)
        then (L153, set_encrypted_length
                      (set_encrypted s1 (overlay out (encrypted s))) olen)
        else (Fault (WriteBeyondEncrypted olen), s1)
      else (Spin 150, emit s1 (Print "Encryption failed: " :: displayRsaStatus r))
  | L153 =>                                     (* lines 153-162 *)
      (L163, emit s (Print "Encrypted message (hex): "
                       :: hex_dump (encrypted s) (encrypted_length s)
                       ++ [Println ""; Println "Decrypting..."]))
  | L163 =>                                     (* lines 163-170 *)
      let input := window (encrypted s) (encrypted_length s) in
      let '(r, out, g) :=
        mbedtls_pk_decrypt L (pk_ctx_priv s) input (encrypted_length s)
          MAX_MESSAGE_LENGTH (ctr_drbg s) in
      let olen := capacity out in
      let s1 := emit (set_ret (set_ctr_drbg s g) r)
                  [Decrypt input (encrypted_length s) (capacity (decrypted s))
                     MAX_MESSAGE_LENGTH r olen] in
      if r =? 0 then
        if olen <=? capacity (decrypted s)
        then (L173, set_decrypted_length
                      (set_decrypted s1 (overlay out (decrypted s))) olen)
        else (Fault (WriteBeyondDecrypted olen), s1)
      else (Spin 169, emit s1 (Print "Decryption failed: " :: displayRsaStatus r))
  | L173 =>                                     (* decrypted[decrypted_length] = 0 *)
      if decrypted_length s <? capacity (decrypted s)
      then (L176, set_decrypted s
                    (store (decrypted s) (Z.to_nat (decrypted_length s)) x00))
      else (Fault (StoreBeyondDecrypted (decrypted_length s)), s)
  | L176 =>                                     (* lines 176-185; the four
                                                   free calls leave nothing
                                                   to observe *)
      (L190, emit s [Print "Decrypted message: ";
                     Println (string_of_list_byte (c_str (decrypted s)));
                     Println "Demo completed!"])
  | L190 => (L190, s)                           (* loop: delay(1000) *)
  | Spin l => (Spin l, s)
  | Fault f => (Fault f, s)
  end.

(** The locals as declared at lines 61-74.  The contexts and the two size
    variables, which C leaves undefined until lines 90-93 and 106-110,
    start at the values given to them there first. *)
Definition initial_state : state :=
  mkState (zeros KEY_BUF_SIZE) (zeros KEY_BUF_SIZE)
    (zeros MAX_ENCRYPTED_LENGTH) (zeros MAX_MESSAGE_LENGTH)
    (mbedtls_pk_init L) (mbedtls_pk_init L) (mbedtls_ctr_drbg_init L)
    0 0 0 0 0 [].

(** The configuration after [n] transitions from reset. *)
Definition run (n : nat) : config := Nat.iter n step (L46 0, initial_state).

End Sketch.

Arguments public_key_buf {L} s.
Arguments private_key_buf {L} s.
Arguments encrypted {L} s.
Arguments decrypted {L} s.
Arguments pk_ctx_pub {L} s.
Arguments pk_ctx_priv {L} s.
Arguments ctr_drbg {L} s.
Arguments encrypted_length {L} s.
Arguments decrypted_length {L} s.
Arguments ret {L} s.
Arguments pubKeySize {L} s.
Arguments privKeySize {L} s.
Arguments log {L} s.

Arguments zeros : simpl never.
Arguments window : simpl never.
Arguments overlay : simpl never.
Arguments capacity : simpl never.
Arguments size_t : simpl never.
Arguments hex_dump : simpl never.
Arguments dec : simpl never.

(** ** Reading a history *)

(** The source line a configuration stands at. *)
Definition line (l : label) : Z :=
  match l with
  | L46 _ => 46 | L51 => 51 | L54 => 54 | L77 => 77 | L82 => 82 | L87 => 87
  | L96 => 96 | L105 => 105 | L109 => 109 | L113 => 113 | L119 => 119
  | L128 => 128 | L136 => 136 | L144 => 144 | L153 => 153 | L163 => 163
  | L173 => 173 | L176 => 176 | L190 => 190
  | Spin l => l
  | Fault (SizeOfUnopenedFile p) =>
      if String.eqb p PUBLIC_KEY_FILE then 105 else 109
  | Fault (WriteBeyondEncrypted _) => 145
  | Fault (WriteBeyondDecrypted _) => 164
  | Fault (StoreBeyondDecrypted _) => 173
  end.

(** A configuration the sketch never leaves. *)
Definition final (l : label) : bool :=
  match l with
  | Spin _ | Fault _ | L190 => true
  | _ => false
  end.

(** A call that reported a failure. *)
Definition is_failure (ev : event) : bool :=
  match ev with
  | SdBegin ok | SdOpen _ _ ok => negb ok
  | Seed r | ParsePublicKey _ _ r | ParseKey _ _ r
  | Encrypt _ _ _ _ r _ | Decrypt _ _ _ _ r _ => negb (r =? 0)
  | Print _ | Println _ => false
  end.

Definition quiet (ev : event) : Prop := is_failure ev = false.

(** The cryptographic operations: seeding, encryption, decryption. *)
Definition is_crypto (ev : event) : bool :=
  match ev with
  | Seed _ | Encrypt _ _ _ _ _ _ | Decrypt _ _ _ _ _ _ => true
  | _ => false
  end.

Definition is_cipher_call (ev : event) : bool :=
  match ev with
  | Encrypt _ _ _ _ _ _ | Decrypt _ _ _ _ _ _ => true
  | _ => false
  end.

(** The result of every call is tested by the sketch, except that of
    the two opens made for the file sizes (lines 105 and 109). *)
Definition checked (ev : event) : bool :=
  match ev with
  | SdOpen call _ _ => (call <? 2)%nat
  | _ => true
  end.

(** A key file that is missing when it is to be loaded, or whose content
    does not parse. *)
Definition is_key_failure (ev : event) : bool :=
  match ev with
  | SdOpen call _ ok => negb ok && (call <? 2)%nat
  | ParsePublicKey _ _ r | ParseKey _ _ r => negb (r =? 0)
  | _ => false
  end.

(** What the console shows after a failed call, and the line of the
    [while (1);] that follows. *)
Definition report (L : Mbedtls) (ev : event) : list event :=
  match ev with
  | SdBegin _ => [Println "SD card initialization failed!"]
  | SdOpen _ path _ =>
      [Print "Failed to open file: "; Println path;
       Println (if String.eqb path PUBLIC_KEY_FILE
                then "Failed to load public key!"
                else "Failed to load private key!")]
  | Seed r =>
      Print "Failed to seed random number generator: " :: displayRsaStatus L r
  | ParsePublicKey _ _ r =>
      Print "Failed to parse public key: " :: displayRsaStatus L r
  | ParseKey _ _ r =>
      Print "Failed to parse private key: " :: displayRsaStatus L r
  | Encrypt _ _ _ _ r _ => Print "Encryption failed: " :: displayRsaStatus L r
  | Decrypt _ _ _ _ r _ => Print "Decryption failed: " :: displayRsaStatus L r
  | Print _ | Println _ => []
  end.

Definition halt_line (ev : event) : Z :=
  match ev with
  | SdBegin _ => 56
  | SdOpen _ path _ => if String.eqb path PUBLIC_KEY_FILE then 79 else 84
  | Seed _ => 101
  | ParsePublicKey _ _ _ => 124
  | ParseKey _ _ _ => 133
  | Encrypt _ _ _ _ _ _ => 150
  | Decrypt _ _ _ _ _ _ => 169
  | Print _ | Println _ => 0
  end.

(** The console becomes ready at the k-th test of the start-up wait. *)
Definition ready_at (B : Board) (k : nat) : Prop :=
  serial_ready B k = true /\ forall j, (j < k)%nat -> serial_ready B j = false.

(** The key buffer after [loadKeyFromSD] ran on the zeroed array. *)
Definition loaded (B : Board) (call : nat) (path : string) : bytes :=
  snd (fst (loadKeyFromSD B call path (zeros KEY_BUF_SIZE) KEY_BUF_SIZE)).

Arguments loaded : simpl never.

(** [mbedtls_pk_get_len]: the key size in bytes. *)
Definition pk_get_len (L : Mbedtls) (k : pk_context L) : Z :=
  (mbedtls_pk_get_bitlen L k + 7) / 8.

(** ** Environments used to exercise the sketch *)

(** A library whose answers are fixed in advance.  A context is the bit
    length of the key it holds; a successful encryption writes one block
    of the key's length. *)
Record script : Type := {
  seed_ret : Z;
  parse_public_ret : Z;
  parse_private_ret : Z;
  key_bits : N;
  encrypt_ret : Z;
  decrypt_ret : Z;
  decrypt_out : bytes
}.

Definition scripted (p : script) : Mbedtls := {|
  pk_context := N;
  ctr_drbg_context := nat;
  mbedtls_pk_init := 0%N;
  mbedtls_ctr_drbg_init := O;
  mbedtls_ctr_drbg_seed := fun g _ _ => (seed_ret p, S g);
  mbedtls_pk_parse_public_key := fun k _ _ =>
    (parse_public_ret p, if parse_public_ret p =? 0 then key_bits p else k);
  mbedtls_pk_parse_key := fun k _ _ =>
    (parse_private_ret p, if parse_private_ret p =? 0 then key_bits p else k);
  mbedtls_pk_encrypt := fun k _ _ _ g =>
    (encrypt_ret p, repeat xc3 (Z.to_nat ((Z.of_N k + 7) / 8)), S g);
  mbedtls_pk_decrypt := fun _ _ _ _ g => (decrypt_ret p, decrypt_out p, S g);
  mbedtls_strerror := fun r _ => ("mbedtls error -" ++ dec (- r))%string;
  mbedtls_pk_get_bitlen := fun k => Z.of_N k
|}.

(** A card holding the two key files, all of whose opens go through but
    the [bad]-th; the console is ready at the third test. *)
Definition card (pub priv : option bytes) (bad : option nat) : Board := {|
  serial_ready := fun k => (2 <=? k)%nat;
  sd_begin := true;
  sd_files := fun path =>
    if String.eqb path PUBLIC_KEY_FILE then pub
    else if String.eqb path PRIVATE_KEY_FILE then priv
    else None;
  sd_open_ok := fun i =>
    match bad with
    | Some j => negb (i =? j)%nat
    | None => true
    end
|}.

(** Stand-ins for DER files of the sizes OpenSSL writes for RSA-2048. *)
Definition sample_public_der : bytes := x30 :: x82 :: x01 :: x22 :: repeat xa5 290.
Definition sample_private_der : bytes := x30 :: x82 :: x04 :: xbe :: repeat x5a 1214.

(** Both keys parse as 2048-bit keys, decryption returns the message. *)
Definition good_script : script := {|
  seed_ret := 0; parse_public_ret := 0; parse_private_ret := 0;
  key_bits := 2048;
  encrypt_ret := 0;
  decrypt_ret := 0; decrypt_out := list_byte_of_string message
|}.

(** The public key file does not parse (MBEDTLS_ERR_PK_KEY_INVALID_FORMAT). *)
Definition bad_public_key_script : script := {|
  seed_ret := 0; parse_public_ret := -15616; parse_private_ret := 0;
  key_bits := 2048;
  encrypt_ret := 0;
  decrypt_ret := 0; decrypt_out := list_byte_of_string message
|}.

(** Decryption succeeds with a plaintext that fills its 100 byte limit. *)
Definition full_plaintext_script : script := {|
  seed_ret := 0; parse_public_ret := 0; parse_private_ret := 0;
  key_bits := 2048;
  encrypt_ret := 0;
  decrypt_ret := 0; decrypt_out := repeat x41 100
|}.

Definition good_card : Board :=
  card (Some sample_public_der) (Some sample_private_der) None.

(** The same card, on which the third open (line 105) fails. *)
Definition flaky_card : Board :=
  card (Some sample_public_der) (Some sample_private_der) (Some 2%nat).

(** A public key file of 3000 bytes, larger than the key buffer. *)
Definition oversized_card : Board :=
  card (Some (repeat x30 3000)) (Some sample_private_der) None.

(** An empty public key file. *)
Definition empty_key_card : Board :=
  card (Some []) (Some sample_private_der) None.

(** ** Two statements the code does not bear out *)

(** After a key file failure the sketch halts, and no seed, encrypt or
    decrypt call is found before or after the failure. *)
Definition halts_before_any_crypto (L : Mbedtls) (B : Board) : Prop :=
  forall n pre ev post,
    log (snd (run L B n)) = pre ++ ev :: post ->
    is_key_failure ev = true ->
    (exists l, forall m, (n <= m)%nat -> fst (run L B m) = Spin l) /\
    Forall (fun e => is_crypto e = false) (pre ++ post).

(** The output array is larger than what a successful call wrote. *)
Definition capacity_exceeds_output (L : Mbedtls) (B : Board) : Prop :=
  forall n ev,
    In ev (log (snd (run L B n))) ->
    match ev with
    | Encrypt _ _ cap _ r olen | Decrypt _ _ cap _ r olen =>
        r = 0 -> olen < cap
    | _ => True
    end.

(** ** Invariants of the run *)

(** The four arrays keep their declared sizes. *)
Definition caps_inv {L : Mbedtls} (c : config L) : Prop :=
  capacity (public_key_buf (snd c)) = KEY_BUF_SIZE /\
  capacity (private_key_buf (snd c)) = KEY_BUF_SIZE /\
  capacity (encrypted (snd c)) = MAX_ENCRYPTED_LENGTH /\
  capacity (decrypted (snd c)) = MAX_MESSAGE_LENGTH.

(** What the key buffers and the size variables hold at each line. *)
Definition keys_inv {L : Mbedtls} (B : Board) (c : config L) : Prop :=
  let l := fst c in
  let s := snd c in
  public_key_buf s =
    (if line l <=? 77 then zeros KEY_BUF_SIZE else loaded B 0 PUBLIC_KEY_FILE) /\
  private_key_buf s =
    (if line l <=? 82 then zeros KEY_BUF_SIZE else loaded B 1 PRIVATE_KEY_FILE) /\
  (79 < line l -> exists f, sd_open B 0 PUBLIC_KEY_FILE = Some f /\ f <> []) /\
  (84 < line l -> exists f, sd_open B 1 PRIVATE_KEY_FILE = Some f /\ f <> []) /\
  (105 < line l -> forall f, sd_files B PUBLIC_KEY_FILE = Some f ->
                   pubKeySize s = size_t (capacity f)) /\
  (109 < line l -> forall f, sd_files B PRIVATE_KEY_FILE = Some f ->
                   privKeySize s = size_t (capacity f)).

(** A parse call receives the loaded buffer and the size of the file. *)
Definition parse_recorded (B : Board) (ev : event) : Prop :=
  match ev with
  | ParsePublicKey key keylen _ =>
      key = window (loaded B 0 PUBLIC_KEY_FILE) keylen /\
      exists f, sd_open B 0 PUBLIC_KEY_FILE = Some f /\ keylen = size_t (capacity f)
  | ParseKey key keylen _ =>
      key = window (loaded B 1 PRIVATE_KEY_FILE) keylen /\
      exists f, sd_open B 1 PRIVATE_KEY_FILE = Some f /\ keylen = size_t (capacity f)
  | _ => True
  end.

(** An output limit passed to the library is the size of the output array. *)
Definition output_sized (ev : event) : Prop :=
  match ev with
  | Encrypt _ _ cap osize _ _ =>
      cap = MAX_ENCRYPTED_LENGTH /\ osize = MAX_ENCRYPTED_LENGTH
  | Decrypt _ _ cap osize _ _ =>
      cap = MAX_MESSAGE_LENGTH /\ osize = MAX_MESSAGE_LENGTH
  | _ => True
  end.

Definition calls_inv {L : Mbedtls} (B : Board) (c : config L) : Prop :=
  Forall (parse_recorded B) (log (snd c)) /\ Forall output_sized (log (snd c)).

(** A failed call whose result is tested is found only in a history that
    ends with its report, at the matching [while (1);]; a failed open
    for a file size ends the history where the size is taken. *)
Definition fail_inv {L : Mbedtls} (c : config L) : Prop :=
  let lg := log (snd c) in
  match fst c with
  | Spin l =>
      Forall quiet lg \/
      exists pre ev,
        lg = pre ++ ev :: report L ev /\ is_failure ev = true /\
        checked ev = true /\ l = halt_line ev /\ Forall quiet pre
  | Fault (SizeOfUnopenedFile path) =>
      exists pre call,
        lg = pre ++ [SdOpen call path false] /\ (2 <= call)%nat /\
        Forall quiet pre
  | _ => Forall quiet lg
  end.

(** Which calls can have been made at each line. *)
Definition crypto_inv {L : Mbedtls} (c : config L) : Prop :=
  let l := fst c in
  let lg := log (snd c) in
  (line l <= 96 -> Forall (fun ev => is_crypto ev = false) lg) /\
  (line l <= 144 -> Forall (fun ev => is_cipher_call ev = false) lg) /\
  (101 < line l -> In (Seed 0) lg).

(** ** The library's side of the round trip *)

(** Both key files parse. *)
Definition keys_parse (L : Mbedtls) (pub priv : bytes) (pk sk : pk_context L) : Prop :=
  mbedtls_pk_parse_public_key L (mbedtls_pk_init L) pub (capacity pub) = (0, pk) /\
  mbedtls_pk_parse_key L (mbedtls_pk_init L) priv (capacity priv) = (0, sk).

(** The keys belong together: what the public key encrypts from the
    message, within one 2048-bit block, the private key decrypts to it. *)
Definition round_trip (L : Mbedtls) (pk sk : pk_context L) (g : ctr_drbg_context L)
  : Prop :=
  exists ct g2 g3,
    mbedtls_pk_encrypt L pk (list_byte_of_string message) (strlen message)
      MAX_ENCRYPTED_LENGTH g = (0, ct, g2) /\
    capacity ct <= MAX_ENCRYPTED_LENGTH /\
    mbedtls_pk_decrypt L sk ct (capacity ct) MAX_MESSAGE_LENGTH g2 =
      (0, list_byte_of_string message, g3).

(** [*olen] of a successful encryption is the key size in bytes. *)
Definition encrypt_fills_block (L : Mbedtls) : Prop :=
  forall k input ilen osize g out g',
    mbedtls_pk_encrypt L k input ilen osize g = (0, out, g') ->
    capacity out = pk_get_len L k.

(** ** Reading the hex dump back *)

(** The value of an upper-case hexadecimal digit. *)
Definition hex_value (c : ascii) : option N :=
  match index 0 (String c EmptyString) "0123456789ABCDEF" with
  | Some i => Some (N.of_nat i)
  | None => None
  end.

(** The byte written as two hexadecimal digits. *)
Definition unhex (t : string) : option byte :=
  match t with
  | String h (String l EmptyString) =>
      match hex_value h, hex_value l with
      | Some a, Some b => Byte.of_N (16 * a + b)
      | _, _ => None
      end
  | _ => None
  end.

(** The byte an item of the history shows in hexadecimal, if it does. *)
Definition dumped (ev : event) : option byte :=
  match ev with
  | Print t => unhex t
  | _ => None
  end.

(** ** The calls of a history *)

Inductive call_kind : Type :=
| KBegin
| KOpen (call : nat)
| KSeed
| KParsePublic
| KParsePrivate
| KEncrypt
| KDecrypt.

Definition kind_of (ev : event) : list call_kind :=
  match ev with
  | Print _ | Println _ => []
  | SdBegin _ => [KBegin]
  | SdOpen call _ _ => [KOpen call]
  | Seed _ => [KSeed]
  | ParsePublicKey _ _ _ => [KParsePublic]
  | ParseKey _ _ _ => [KParsePrivate]
  | Encrypt _ _ _ _ _ _ => [KEncrypt]
  | Decrypt _ _ _ _ _ _ => [KDecrypt]
  end.

(** The calls to the card and to the library found in a history. *)
Definition calls (lg : list event) : list call_kind := flat_map kind_of lg.

(** The calls of [setup] in the order of the source. *)
Definition call_order : list call_kind :=
  [KBegin; KOpen 0; KOpen 1; KSeed; KOpen 2; KOpen 3;
   KParsePublic; KParsePrivate; KEncrypt; KDecrypt].

(** How many of them have been made when a program point is reached. *)
Definition calls_made (l : label) : nat :=
  match l with
  | L46 _ | L51 | L54 => 0
  | L77 => 1
  | L82 => 2
  | L87 | L96 => 3
  | L105 => 4
  | L109 => 5
  | L113 | L119 => 6
  | L128 => 7
  | L136 | L144 => 8
  | L153 | L163 => 9
  | L173 | L176 | L190 => 10
  | Spin _ | Fault _ => 0
  end.

(** The calls made so far are the first ones of that order. *)
Definition order_inv {L : Mbedtls} (c : config L) : Prop :=
  let made := calls (log (snd c)) in
  match fst c with
  | Spin _ | Fault _ => exists k, made = firstn k call_order
  | l => made = firstn (calls_made l) call_order
  end.

(** The lines at which [setup] has a [while (1);]. *)
Definition halt_lines : list Z := [56; 79; 84; 101; 124; 133; 150; 169].

Definition halt_inv {L : Mbedtls} (c : config L) : Prop :=
  match fst c with
  | Spin l => In l halt_lines
  | _ => True
  end.

(** Transitions left until the sketch is in [loop], in a [while (1);] or
    at a fault, once the console is ready. *)
Definition remaining (l : label) : nat :=
  match l with
  | L46 _ => 18
  | L51 => 17 | L54 => 16 | L77 => 15 | L82 => 14 | L87 => 13 | L96 => 12
  | L105 => 11 | L109 => 10 | L113 => 9 | L119 => 8 | L128 => 7 | L136 => 6
  | L144 => 5 | L153 => 4 | L163 => 3 | L173 => 2 | L176 => 1
  | L190 | Spin _ | Fault _ => 0
  end.

(** Where a run may come to rest. *)
Definition resting (l : label) : Prop :=
  match l with
  | L190 | Fault _ => True
  | Spin l => In l halt_lines
  | _ => False
  end.

(** ** The output limit of the library *)




(** ** Further environments *)


(** A board whose console never becomes ready. *)
Definition unattended_board : Board := {|
  serial_ready := fun _ => false;
  sd_begin := true;
  sd_files := fun _ => None;
  sd_open_ok := fun _ => true
|}.

(** A board without a usable SD card. *)
Definition board_without_card : Board := {|
  serial_ready := fun k => (2 <=? k)%nat;
  sd_begin := false;
  sd_files := fun _ => None;
  sd_open_ok := fun _ => false
|}.

(** ** Arrays *)

Lemma capacity_nonneg (a : bytes) : 0 <= capacity a.
Proof. unfold capacity. lia. Qed.

Lemma capacity_zeros (n : Z) : 0 <= n -> capacity (zeros n) = n.
Proof. intros Hn. unfold capacity, zeros. rewrite repeat_length. lia. Qed.

Lemma capacity_overlay (src dst : bytes) :
  capacity src <= capacity dst -> capacity (overlay src dst) = capacity dst.
Proof.
  unfold capacity, overlay. intros H.
  rewrite length_app, length_skipn. lia.
Qed.

Lemma capacity_store (a : bytes) (i : nat) (v : byte) :
  capacity (store a i v) = capacity a.
Proof.
  unfold capacity. f_equal. revert i.
  induction a as [|x r IH]; intros [|j]; simpl; auto.
Qed.

Lemma capacity_window (a : bytes) (n : Z) :
  capacity (window a n) = Z.min (Z.max 0 n) (capacity a).
Proof. unfold capacity, window. rewrite length_firstn. lia. Qed.

Lemma window_all (a : bytes) (n : Z) : capacity a <= n -> window a n = a.
Proof. unfold capacity, window. intros H. apply firstn_all2. lia. Qed.

Lemma window_overlay (src dst : bytes) :
  window (overlay src dst) (capacity src) = src.
Proof.
  unfold window, overlay, capacity. rewrite Nat2Z.id.
  rewrite firstn_app, Nat.sub_diag, firstn_all. simpl. apply app_nil_r.
Qed.

Lemma size_t_small (n : Z) : 0 <= n < 2 ^ 32 -> size_t n = n.
Proof. intros H. unfold size_t. apply Z.mod_small. exact H. Qed.

(** ** Running the sketch *)

(** *** Proof steps *)

Ltac step_cases E :=
  cbn [step fst snd] in E; unfold loadKeyFromSD, readBytes in E;
  repeat (match type of E with
          | context [match ?x with _ => _ end] =>
              lazymatch x with
              | context [match _ with _ => _ end] => fail
              | _ => destruct x eqn:?
              end
          end; cbv beta iota in E);
  injection E as <- <-.

Ltac state_simpl :=
  cbn [log emit set_ret set_pk_ctx_pub set_pk_ctx_priv set_ctr_drbg
       set_encrypted set_encrypted_length set_decrypted set_decrypted_length
       set_pubKeySize set_privKeySize set_public_key_buf set_private_key_buf
       public_key_buf private_key_buf encrypted decrypted pk_ctx_pub
       pk_ctx_priv ctr_drbg encrypted_length decrypted_length ret pubKeySize
       privKeySize fst snd].

Ltac grow_log :=
  rewrite <- ?app_assoc; unfold displayRsaStatus;
  repeat match goal with
         | H : Forall ?P ?l |- Forall ?P ?l => exact H
         | |- Forall _ (_ ++ _) => apply Forall_app; split
         | |- Forall _ (_ :: _) => constructor
         | |- Forall _ [] => constructor
         | |- Forall _ (hex_dump _ _) =>
             unfold hex_dump; apply Forall_map, Forall_forall; intros
         end.

Ltac forward :=
  rewrite Nat.iter_succ_r; cbn [step fst snd]; state_simpl;
  cbn [initial_state public_key_buf private_key_buf encrypted decrypted
       pk_ctx_pub pk_ctx_priv ctr_drbg].

Ltac decide_test :=
  match goal with
  | |- context [?a <=? ?b] => replace (a <=? b) with true by (vm_compute; reflexivity)
  | |- context [?a <? ?b] => replace (a <? b) with true by (vm_compute; reflexivity)
  end; cbv beta iota.

Section Runs.

Variable L : Mbedtls.
Variable B : Board.

Lemma run_S (n : nat) : run L B (S n) = step L B (run L B n).
Proof. reflexivity. Qed.

Lemma run_add (n m : nat) : run L B (m + n) = Nat.iter m (step L B) (run L B n).
Proof. induction m as [|m IH]; simpl; [reflexivity|]. now rewrite <- IH. Qed.

Lemma run_ind (P : config L -> Prop) :
  P (L46 0, initial_state L) ->
  (forall c, P c -> P (step L B c)) ->
  forall n, P (run L B n).
Proof.
  intros H0 HS n. induction n as [|n IH]; [exact H0|].
  rewrite run_S. now apply HS.
Qed.

Lemma step_final (c : config L) : final (fst c) = true -> step L B c = c.
Proof. destruct c as [[] s]; simpl; intros H; try discriminate; reflexivity. Qed.

Lemma run_final (n : nat) :
  final (fst (run L B n)) = true -> forall m, (n <= m)%nat -> run L B m = run L B n.
Proof.
  intros H m Hm. induction Hm as [|m Hm IH]; [reflexivity|].
  rewrite run_S, IH. now apply step_final.
Qed.

(** The start-up wait. *)
Lemma run_waiting (k : nat) :
  (forall j, (j < k)%nat -> serial_ready B j = false) ->
  run L B k = (L46 k, initial_state L).
Proof.
  induction k as [|k IH]; intros H; [reflexivity|].
  rewrite run_S, IH by (intros j Hj; apply H; lia).
  cbn [step fst snd]. now rewrite H by lia.
Qed.

Lemma run_ready (k : nat) : ready_at B k -> run L B (S k) = (L51, initial_state L).
Proof.
  intros [Hk Hlt]. rewrite run_S, run_waiting by exact Hlt.
  cbn [step fst snd]. now rewrite Hk.
Qed.

(** *** File loading *)

Lemma sd_open_file (call : nat) (path : string) (f : bytes) :
  sd_open B call path = Some f -> sd_files B path = Some f.
Proof. unfold sd_open. destruct (sd_open_ok B call); [auto | discriminate]. Qed.

Lemma sd_open_same (i j : nat) (path : string) (f g : bytes) :
  sd_open B i path = Some f -> sd_open B j path = Some g -> f = g.
Proof.
  intros Hf Hg. apply sd_open_file in Hf, Hg. congruence.
Qed.

Lemma loadKeyFromSD_some (call : nat) (path : string) (buffer : bytes) (n : Z)
  (f : bytes) :
  sd_open B call path = Some f ->
  loadKeyFromSD B call path buffer n =
    (0 <? capacity (window f n), overlay (window f n) buffer,
     [SdOpen call path true; Print "Loaded ";
      Print (dec (capacity (window f n))); Print " bytes from "; Println path]).
Proof. intros H. unfold loadKeyFromSD, readBytes. now rewrite H. Qed.

Lemma loadKeyFromSD_none (call : nat) (path : string) (buffer : bytes) (n : Z) :
  sd_open B call path = None ->
  loadKeyFromSD B call path buffer n =
    (false, buffer,
     [SdOpen call path false; Print "Failed to open file: "; Println path]).
Proof. intros H. unfold loadKeyFromSD. now rewrite H. Qed.

Lemma loaded_some (call : nat) (path : string) (f : bytes) :
  sd_open B call path = Some f ->
  loaded B call path = overlay (window f KEY_BUF_SIZE) (zeros KEY_BUF_SIZE).
Proof. intros H. unfold loaded, loadKeyFromSD, readBytes. now rewrite H. Qed.

Lemma loaded_none (call : nat) (path : string) :
  sd_open B call path = None -> loaded B call path = zeros KEY_BUF_SIZE.
Proof. intros H. unfold loaded, loadKeyFromSD. now rewrite H. Qed.

Lemma read_some (f : bytes) (n : Z) :
  (0 <? capacity (window f n)) = true -> f <> [].
Proof. intros H ->. unfold window in H. rewrite firstn_nil in H. discriminate. Qed.

Lemma capacity_load (f buffer : bytes) :
  capacity buffer = KEY_BUF_SIZE ->
  capacity (overlay (window f KEY_BUF_SIZE) buffer) = KEY_BUF_SIZE.
Proof.
  intros H. rewrite capacity_overlay; [exact H|].
  rewrite capacity_window, H. unfold KEY_BUF_SIZE. lia.
Qed.

Lemma window_loaded (f : bytes) :
  capacity f <= KEY_BUF_SIZE ->
  window (overlay (window f KEY_BUF_SIZE) (zeros KEY_BUF_SIZE))
    (size_t (capacity f)) = f.
Proof.
  intros H. rewrite (window_all f) by exact H.
  rewrite size_t_small.
  - apply window_overlay.
  - pose proof (capacity_nonneg f). unfold KEY_BUF_SIZE in H. lia.
Qed.

(** *** The invariants hold along every run *)

Lemma caps_inv_init : caps_inv (L46 0, initial_state L).
Proof.
  repeat split; cbn [snd initial_state public_key_buf private_key_buf
                       encrypted decrypted];
    apply capacity_zeros;
    unfold KEY_BUF_SIZE, MAX_ENCRYPTED_LENGTH, MAX_MESSAGE_LENGTH; lia.
Qed.

Lemma caps_inv_step (c : config L) : caps_inv c -> caps_inv (step L B c).
Proof.
  destruct c as [l s]. unfold caps_inv. cbn [snd].
  intros (Hpub & Hpriv & Henc & Hdec).
  destruct (step L B (l, s)) as [l' s'] eqn:E.
  destruct l; step_cases E; cbn; auto.
  all: repeat split; auto using capacity_load.
  all: try (rewrite capacity_overlay; [assumption|lia]).
  all: try (rewrite capacity_store; assumption).
Qed.

Lemma keys_inv_init : keys_inv B (L46 0, initial_state L).
Proof. unfold keys_inv. cbn. repeat split; intros; lia. Qed.

Lemma keys_inv_step (c : config L) : keys_inv B c -> keys_inv B (step L B c).
Proof.
  destruct c as [l s]. unfold keys_inv. cbn [fst snd].
  intros (Hpub & Hpriv & Hf1 & Hf2 & Hs1 & Hs2).
  destruct (step L B (l, s)) as [l' s'] eqn:E.
  destruct l; cbn [line] in *; cbn in Hpub, Hpriv; step_cases E; cbn.
  all: repeat split; intros; try lia; try congruence; auto.
  all: try (eexists; split; [reflexivity | eapply read_some; eassumption]).
  all: try (apply sd_open_file in Heqo; congruence).
  all: try (rewrite Hpub); try (rewrite Hpriv); symmetry;
    auto using loaded_some, loaded_none.
Qed.

Lemma calls_inv_step (c : config L) :
  caps_inv c -> keys_inv B c -> calls_inv B c -> calls_inv B (step L B c).
Proof.
  destruct c as [l s]. unfold caps_inv, keys_inv, calls_inv. cbn [fst snd].
  intros (_ & _ & Henc & Hdec) (Hpub & Hpriv & Hf1 & Hf2 & Hs1 & Hs2) [Hp Ho].
  destruct (step L B (l, s)) as [l' s'] eqn:E.
  destruct l; cbn [line] in *; cbn in Hpub, Hpriv; step_cases E; state_simpl.
  all: split; grow_log; cbn [parse_recorded output_sized]; auto.
  all: split; [congruence|].
  - destruct Hf1 as (f & Hf & _); [lia|]. exists f. split; [exact Hf|].
    apply Hs1; [lia|exact (sd_open_file _ _ _ Hf)].
  - destruct Hf1 as (f & Hf & _); [lia|]. exists f. split; [exact Hf|].
    apply Hs1; [lia|exact (sd_open_file _ _ _ Hf)].
  - destruct Hf2 as (f & Hf & _); [lia|]. exists f. split; [exact Hf|].
    apply Hs2; [lia|exact (sd_open_file _ _ _ Hf)].
  - destruct Hf2 as (f & Hf & _); [lia|]. exists f. split; [exact Hf|].
    apply Hs2; [lia|exact (sd_open_file _ _ _ Hf)].
Qed.

Lemma quiet_report (ev : event) : Forall quiet (report L ev).
Proof. destruct ev; repeat constructor. Qed.

Lemma quiet_ret (r : Z) : (r =? 0) = true -> negb (r =? 0) = false.
Proof. now intros ->. Qed.

Lemma fail_inv_step (c : config L) : fail_inv c -> fail_inv (step L B c).
Proof.
  destruct c as [l s]. unfold fail_inv. cbn [fst snd]. intros Hq.
  destruct (step L B (l, s)) as [l' s'] eqn:E.
  destruct l; step_cases E; state_simpl.
  all: try assumption.
  all: try (grow_log; unfold quiet; cbn [is_failure negb];
            auto using quiet_ret; fail).
  all: try (eexists _, _; split; [reflexivity|]; split; [lia | assumption]).
  all: try (left; grow_log; reflexivity).
  all: rewrite <- ?app_assoc; cbn [app];
    match goal with
    | |- _ \/ exists pre ev, ?a ++ ?e :: _ = _ /\ _ => right; exists a, e
    end;
    (split; [reflexivity|]); cbn [is_failure checked halt_line negb];
    repeat split; try assumption;
    try match goal with H : (_ =? 0) = false |- _ => now rewrite H end.
Qed.

End Runs.

Section Properties.

Variable L : Mbedtls.
Variable B : Board.

Lemma crypto_inv_step (c : config L) : crypto_inv c -> crypto_inv (step L B c).
Proof.
  destruct c as [l s]. unfold crypto_inv. cbn [fst snd].
  intros (Hc & Hd & Hs).
  destruct (step L B (l, s)) as [l' s'] eqn:E.
  destruct l; cbn [line] in *; step_cases E; state_simpl; cbn [line].
  all: repeat split; intros; try lia.
  all: try (specialize (Hc ltac:(lia))); try (specialize (Hd ltac:(lia)));
    try (specialize (Hs ltac:(lia))).
  all: try (grow_log; auto; try reflexivity; fail).
  all: rewrite <- ?app_assoc; rewrite ?in_app_iff; auto.
  right. left. f_equal. symmetry. now apply Z.eqb_eq.
Qed.

Lemma load_ok (f : bytes) :
  0 < capacity f -> (0 <? capacity (window f KEY_BUF_SIZE)) = true.
Proof.
  intros H. apply Z.ltb_lt. rewrite capacity_window. unfold KEY_BUF_SIZE. lia.
Qed.

Lemma demo_final (pub priv : bytes) (k : nat) (pk sk : pk_context L) (g : ctr_drbg_context L) :
  ready_at B k -> sd_begin B = true ->
  (forall i, sd_open B i PUBLIC_KEY_FILE = Some pub) ->
  (forall i, sd_open B i PRIVATE_KEY_FILE = Some priv) ->
  0 < capacity pub <= KEY_BUF_SIZE -> 0 < capacity priv <= KEY_BUF_SIZE ->
  mbedtls_ctr_drbg_seed L (mbedtls_ctr_drbg_init L)
    (list_byte_of_string pers) (strlen pers) = (0, g) ->
  keys_parse L pub priv pk sk -> round_trip L pk sk g ->
  exists s pre,
    run L B (17 + S k) = (L190, s) /\
    c_str (decrypted s) = list_byte_of_string message /\
    log s = pre ++ [Print "Decrypted message: "; Println (string_of_list_byte (c_str (decrypted s))); Println "Demo completed!"].
Proof.
  intros Hk Hsd Hpub Hpriv Lpub Lpriv Hseed [Hppub Hppriv] (ct & g2 & g3 & Henc & Hct & Hdec).
  assert (Spub : size_t (capacity pub) = capacity pub)
    by (apply size_t_small; unfold KEY_BUF_SIZE in Lpub; lia).
  assert (Spriv : size_t (capacity priv) = capacity priv)
    by (apply size_t_small; unfold KEY_BUF_SIZE in Lpriv; lia).
  eexists. eexists. split.
  { rewrite run_add, (run_ready _ _ _ Hk).
    forward. forward. rewrite Hsd.
    forward. rewrite (loadKeyFromSD_some _ _ _ _ _ _ (Hpub _)), load_ok by lia.
    forward. rewrite (loadKeyFromSD_some _ _ _ _ _ _ (Hpriv _)), load_ok by lia.
    forward. forward. rewrite Hseed. cbn [Z.eqb].
    forward. rewrite Hpub. forward. rewrite Hpriv. forward.
    forward. rewrite window_loaded, Spub, Hppub by lia. cbn [Z.eqb].
    forward. rewrite window_loaded, Spriv, Hppriv by lia. cbn [Z.eqb].
    forward. forward. rewrite Henc. cbn [Z.eqb].
    rewrite capacity_zeros by (unfold MAX_ENCRYPTED_LENGTH; lia).
    rewrite (proj2 (Z.leb_le _ _) Hct).
    forward. forward. rewrite window_overlay, Hdec. cbn [Z.eqb].
    decide_test.
    forward. decide_test. forward.
    cbn [Nat.iter]. reflexivity. }
  state_simpl. split; [vm_compute; reflexivity|]. reflexivity.
Qed.

Lemma calls_inv_init : calls_inv B (L46 0, initial_state L).
Proof. split; constructor. Qed.

Lemma fail_inv_init : @fail_inv L (L46 0, initial_state L).
Proof. constructor. Qed.

Lemma crypto_inv_init : @crypto_inv L (L46 0, initial_state L).
Proof. unfold crypto_inv. cbn. repeat split; intros; try lia; constructor. Qed.

Lemma run_invariants (n : nat) :
  caps_inv (run L B n) /\ keys_inv B (run L B n) /\ calls_inv B (run L B n) /\
  fail_inv (run L B n) /\ crypto_inv (run L B n).
Proof.
  apply run_ind.
  - split; [|split; [|split; [|split]]];
      auto using caps_inv_init, keys_inv_init, calls_inv_init, fail_inv_init,
        crypto_inv_init.
  - intros c (H1 & H2 & H3 & H4 & H5).
    split; [|split; [|split; [|split]]];
      auto using caps_inv_step, keys_inv_step, calls_inv_step, fail_inv_step,
        crypto_inv_step.
Qed.

Lemma failure_split_unique (pre' pre post post' : list event) (ev ev' : event) :
  Forall quiet pre' -> Forall quiet post' ->
  is_failure ev = true ->
  pre ++ ev :: post = pre' ++ ev' :: post' ->
  pre = pre' /\ ev = ev' /\ post = post'.
Proof.
  intros Hpre Hpost Hev. revert pre.
  induction Hpre as [|x p Hx Hp IH]; intros [|y q] E; cbn in E.
  - now injection E as -> ->.
  - injection E as -> <-.
    apply Forall_app in Hpost as [_ Hpost]. inversion Hpost; subst.
    unfold quiet in *. congruence.
  - injection E as -> _. unfold quiet in Hx. congruence.
  - injection E as -> E. destruct (IH q E) as (-> & -> & ->). auto.
Qed.

Lemma failure_halted (n : nat) (pre post : list event) (ev : event) :
  log (snd (run L B n)) = pre ++ ev :: post ->
  is_failure ev = true ->
  Forall quiet pre /\
  ((checked ev = true /\ post = report L ev /\
    fst (run L B n) = Spin (halt_line ev)) \/
   (exists call path,
      ev = SdOpen call path false /\ (2 <= call)%nat /\ post = [] /\
      fst (run L B n) = Fault (SizeOfUnopenedFile path))).
Proof.
  intros E Hev. destruct (run_invariants n) as (_ & _ & _ & Hf & _).
  unfold fail_inv in Hf. cbn zeta in Hf.
  assert (Hno : ~ Forall quiet (log (snd (run L B n)))).
  { intros H. rewrite E in H. apply Forall_app in H as [_ H].
    inversion H; subst. unfold quiet in *. congruence. }
  destruct (fst (run L B n)) as [k| | | | | | | | | | | | | | | | | | |l|f];
    try contradiction.
  - split.
    { destruct Hf as [Hf | (pre' & ev' & E' & Hev' & Hc & Hl & Hq)];
        [contradiction|]. rewrite E in E'.
      now destruct (failure_split_unique pre' pre post (report L ev') ev ev'
                      Hq (quiet_report _ _) Hev E') as (-> & _). }
    left. destruct Hf as [Hf | (pre' & ev' & E' & Hev' & Hc & Hl & Hq)];
      [contradiction|].
    rewrite E in E'.
    destruct (failure_split_unique pre' pre post (report L ev') ev ev' Hq
                (quiet_report _ _) Hev E') as (-> & -> & ->).
    subst. auto.
  - destruct f as [path | | |]; try contradiction.
    destruct Hf as (pre' & call & E' & Hc & Hq). rewrite E in E'.
    destruct (failure_split_unique pre' pre post [] ev _ Hq
                (Forall_nil _) Hev E') as (-> & -> & ->).
    split; [exact Hq|]. right. exists call, path. auto.
Qed.

Lemma checked_failure_halted (n : nat) (pre post : list event) (ev : event) :
  log (snd (run L B n)) = pre ++ ev :: post ->
  is_failure ev = true -> checked ev = true ->
  post = report L ev /\ fst (run L B n) = Spin (halt_line ev) /\
  forall m, (n <= m)%nat -> run L B m = run L B n.
Proof.
  intros E Hev Hc.
  destruct (failure_halted n pre post ev E Hev)
    as (_ & [(_ & H1 & H2) | (call & path & -> & Hcall & _)]).
  - split; [exact H1|]. split; [exact H2|].
    intros m Hm. apply run_final; [now rewrite H2 | exact Hm].
  - cbn [checked] in Hc. apply Nat.ltb_lt in Hc. lia.
Qed.

End Properties.

Section Claims.

Variable L : Mbedtls.
Variable B : Board.

(** C1. With both key files on a card that can be read, and a library
    that parses them and whose decryption under the private key returns
    the message that was encrypted under the public key, the sketch ends
    in [loop] with the decrypted array holding, up to its terminator,
    exactly the constant message, and it has printed that message. *)
Theorem demo_round_trip
  (pub priv : bytes) (k : nat) (pk sk : pk_context L) (g : ctr_drbg_context L) :
  ready_at B k -> sd_begin B = true ->
  (forall i, sd_open B i PUBLIC_KEY_FILE = Some pub) ->
  (forall i, sd_open B i PRIVATE_KEY_FILE = Some priv) ->
  0 < capacity pub <= KEY_BUF_SIZE ->
  0 < capacity priv <= KEY_BUF_SIZE ->
  mbedtls_ctr_drbg_seed L (mbedtls_ctr_drbg_init L)
    (list_byte_of_string pers) (strlen pers) = (0, g) ->
  keys_parse L pub priv pk sk ->
  round_trip L pk sk g ->
  forall m, (k + 18 <= m)%nat ->
    fst (run L B m) = L190 /\
    c_str (decrypted (snd (run L B m))) = list_byte_of_string message /\
    exists pre,
      log (snd (run L B m)) =
        pre ++ [Print "Decrypted message: "; Println message;
                Println "Demo completed!"].
Proof.
  intros Hk Hsd Hpub Hpriv Lpub Lpriv Hseed Hparse Hrt m Hm.
  destruct (demo_final L B pub priv k pk sk g Hk Hsd Hpub Hpriv Lpub Lpriv
              Hseed Hparse Hrt) as (s & pre & E & Hc & Hl).
  assert (Em : run L B m = (L190, s)).
  { rewrite <- E. apply run_final; [now rewrite E | lia]. }
  rewrite Em. cbn [fst snd]. split; [reflexivity|]. split; [exact Hc|].
  exists pre. rewrite Hl, Hc. now rewrite string_of_list_byte_of_string.
Qed.

Lemma past_encrypt_step (c : config L) :
  144 < line (fst c) ->
  144 < line (fst (step L B c)) /\
  encrypted_length (snd (step L B c)) = encrypted_length (snd c).
Proof.
  destruct c as [l s]. cbn [fst snd]. intros Hl.
  destruct (step L B (l, s)) as [l' s'] eqn:E.
  destruct l; cbn [line] in Hl; try lia; step_cases E; state_simpl;
    cbn [line]; split; try lia; reflexivity.
Qed.

Lemma past_encrypt (n m : nat) :
  144 < line (fst (run L B n)) -> (n <= m)%nat ->
  144 < line (fst (run L B m)) /\
  encrypted_length (snd (run L B m)) = encrypted_length (snd (run L B n)).
Proof.
  intros Hn Hm. induction Hm as [|m Hm [IH1 IH2]]; [auto|].
  rewrite run_S. destruct (past_encrypt_step _ IH1) as [H1 H2].
  split; [exact H1 | congruence].
Qed.

(** C2. Under the library's rule that a successful encryption writes as
    many bytes as the key is long, whenever the call at line 144 is made
    with a 2048-bit key and returns zero, the sketch goes on to the hex
    dump with [encrypted_length] equal to 256, and the variable keeps
    that value for the rest of the run. *)
Theorem encrypted_length_is_256 (n : nat) :
  encrypt_fills_block L ->
  fst (run L B n) = L144 ->
  mbedtls_pk_get_bitlen L (pk_ctx_pub (snd (run L B n))) = RSA_KEY_SIZE ->
  ret (snd (run L B (S n))) = 0 ->
  fst (run L B (S n)) = L153 /\
  forall m, (S n <= m)%nat -> encrypted_length (snd (run L B m)) = 256.
Proof.
  intros Hfill Hl Hbits Hret.
  destruct (run_invariants L B n) as ((_ & _ & Hcap & _) & _).
  assert (H : fst (run L B (S n)) = L153 /\
              encrypted_length (snd (run L B (S n))) = 256).
  { rewrite run_S in *. destruct (run L B n) as [l s]. cbn [fst snd] in *.
    subst l. cbn [step fst snd] in *.
    destruct (mbedtls_pk_encrypt L (pk_ctx_pub s) (list_byte_of_string message)
                (strlen message) MAX_ENCRYPTED_LENGTH (ctr_drbg s))
      as [[r out] g'] eqn:E.
    assert (Hr : r = 0).
    { destruct (r =? 0); [destruct (capacity out <=? capacity (encrypted s))|];
        exact Hret. }
    subst r. apply Hfill in E. unfold pk_get_len in E. rewrite Hbits in E.
    change ((RSA_KEY_SIZE + 7) / 8) with 256 in E.
    cbn [Z.eqb]. rewrite Hcap, E. cbn. auto. }
  destruct H as [H1 H2]. split; [exact H1|]. intros m Hm.
  destruct (past_encrypt (S n) m) as [_ ->]; [rewrite H1; cbn; lia | exact Hm | exact H2].
Qed.

Lemma key_failure_is_failure (ev : event) :
  is_key_failure ev = true -> is_failure ev = true /\ checked ev = true.
Proof.
  destruct ev; cbn; auto; try discriminate.
  intros H. apply andb_true_iff in H. exact H.
Qed.

(** C3, as the code has it.  When a key file cannot be opened or does not
    parse, the sketch is in its [while (1);] for good and has made no
    encrypt or decrypt call; for a file that cannot be opened it has not
    seeded the generator either, while a parse failure comes after the
    successful seed call. *)
Theorem key_failure_halts (n : nat) (pre post : list event) (ev : event) :
  log (snd (run L B n)) = pre ++ ev :: post ->
  is_key_failure ev = true ->
  (exists l, fst (run L B n) = Spin l) /\
  (forall m, (n <= m)%nat -> run L B m = run L B n) /\
  Forall (fun e => is_cipher_call e = false) (pre ++ ev :: post) /\
  match ev with
  | SdOpen _ _ _ => Forall (fun e => is_crypto e = false) (pre ++ ev :: post)
  | _ => In (Seed 0) pre
  end.
Proof.
  intros E Hev. destruct (key_failure_is_failure _ Hev) as [Hf Hck].
  destruct (checked_failure_halted L B n pre post ev E Hf Hck)
    as (Hpost & Hl & Hstay).
  destruct (run_invariants L B n) as (_ & _ & _ & _ & Hc & Hd & Hs).
  rewrite Hl, E in *. cbn [line] in *.
  split; [eauto|]. split; [exact Hstay|].
  destruct ev; try discriminate; cbn [halt_line] in *.
  - split; [apply Hd|apply Hc]; destruct (String.eqb path PUBLIC_KEY_FILE); lia.
  - split; [apply Hd; lia|]. subst post.
    destruct (in_app_or _ _ _ (Hs ltac:(lia))) as [H|H]; [exact H|].
    cbn in H. intuition discriminate.
  - split; [apply Hd; lia|]. subst post.
    destruct (in_app_or _ _ _ (Hs ltac:(lia))) as [H|H]; [exact H|].
    cbn in H. intuition discriminate.
Qed.

Lemma overlay_full (src dst : bytes) :
  capacity src = capacity dst -> overlay src dst = src.
Proof.
  unfold capacity, overlay. intros H.
  rewrite skipn_all2 by lia. apply app_nil_r.
Qed.

Lemma window_loaded_file (f : bytes) :
  capacity f < 2 ^ 32 ->
  window (overlay (window f KEY_BUF_SIZE) (zeros KEY_BUF_SIZE))
    (size_t (capacity f)) = window f KEY_BUF_SIZE.
Proof.
  intros Hf. pose proof (capacity_nonneg f) as H0.
  destruct (Z_le_gt_dec (capacity f) KEY_BUF_SIZE) as [Hle|Hgt].
  - rewrite window_loaded by exact Hle. symmetry. now apply window_all.
  - rewrite size_t_small by lia.
    rewrite overlay_full.
    + apply window_all. rewrite capacity_window. lia.
    + rewrite capacity_window, capacity_zeros; unfold KEY_BUF_SIZE in *; lia.
Qed.

(** C6. Each key buffer holds zeros up to its call of [loadKeyFromSD] and
    from then on, at every later point of the run, what that call left
    in it; the parse calls are handed that buffer with the file size,
    and the bytes they are given are the bytes read from the file. *)
Theorem key_buffers_loaded_once (n : nat) :
  let l := fst (run L B n) in
  let s := snd (run L B n) in
  public_key_buf s =
    (if line l <=? 77 then zeros KEY_BUF_SIZE
     else loaded B 0 PUBLIC_KEY_FILE) /\
  private_key_buf s =
    (if line l <=? 82 then zeros KEY_BUF_SIZE
     else loaded B 1 PRIVATE_KEY_FILE) /\
  (forall key keylen r, In (ParsePublicKey key keylen r) (log s) ->
     key = window (loaded B 0 PUBLIC_KEY_FILE) keylen /\
     forall f, sd_files B PUBLIC_KEY_FILE = Some f -> capacity f < 2 ^ 32 ->
               key = window f KEY_BUF_SIZE) /\
  (forall key keylen r, In (ParseKey key keylen r) (log s) ->
     key = window (loaded B 1 PRIVATE_KEY_FILE) keylen /\
     forall f, sd_files B PRIVATE_KEY_FILE = Some f -> capacity f < 2 ^ 32 ->
               key = window f KEY_BUF_SIZE).
Proof.
  cbn zeta.
  destruct (run_invariants L B n) as (_ & (Hpub & Hpriv & _) & (Hp & _) & _).
  split; [exact Hpub|]. split; [exact Hpriv|].
  rewrite Forall_forall in Hp.
  split; intros key keylen r Hin; destruct (Hp _ Hin) as (Hk & f0 & Hf0 & Hlen);
    (split; [exact Hk|]); intros f Hf Hsize;
    rewrite (sd_open_file B _ _ _ Hf0) in Hf; injection Hf as <-;
    rewrite Hk, Hlen, (loaded_some B _ _ _ Hf0); now apply window_loaded_file.
Qed.

(** C7, as the code has it.  Throughout the run the arrays keep their
    sizes, and each encrypt or decrypt call is given as output limit
    exactly the size of its output array (256 and 100), so that an output
    within the limit fits the array; the capacity is at least what the
    library may write, and not larger than that. *)
Theorem output_limit_is_capacity (n : nat) :
  capacity (encrypted (snd (run L B n))) = MAX_ENCRYPTED_LENGTH /\
  capacity (decrypted (snd (run L B n))) = MAX_MESSAGE_LENGTH /\
  forall ev, In ev (log (snd (run L B n))) ->
    match ev with
    | Encrypt _ _ cap osize _ olen =>
        cap = 256 /\ osize = cap /\ (olen <= osize -> olen <= cap)
    | Decrypt _ _ cap osize _ olen =>
        cap = 100 /\ osize = cap /\ (olen <= osize -> olen <= cap)
    | _ => True
    end.
Proof.
  destruct (run_invariants L B n) as ((_ & _ & He & Hd) & _ & (_ & Ho) & _).
  split; [exact He|]. split; [exact Hd|].
  rewrite Forall_forall in Ho. intros ev Hin. specialize (Ho ev Hin).
  destruct ev; auto; destruct Ho as [-> ->];
    unfold MAX_ENCRYPTED_LENGTH, MAX_MESSAGE_LENGTH; auto.
Qed.

(** C9. [loadKeyFromSD] answers true exactly when the file opens and at
    least one byte is read from it; with an empty key file on the card
    the sketch reports the load failure and stays in the [while (1);]
    after it. *)
Theorem loadKeyFromSD_true_iff :
  (forall call filename buffer buffer_size,
     fst (fst (loadKeyFromSD B call filename buffer buffer_size)) = true <->
     exists content,
       sd_open B call filename = Some content /\
       window content buffer_size <> []) /\
  (forall k, ready_at B k -> sd_begin B = true ->
     sd_open B 0 PUBLIC_KEY_FILE = Some [] ->
     forall m, (k + 4 <= m)%nat ->
       fst (run L B m) = Spin 79 /\
       exists pre,
         log (snd (run L B m)) =
           pre ++ [SdOpen 0 PUBLIC_KEY_FILE true; Print "Loaded "; Print "0";
                   Print " bytes from "; Println PUBLIC_KEY_FILE;
                   Println "Failed to load public key!"]) /\
  (forall k pub, ready_at B k -> sd_begin B = true ->
     sd_open B 0 PUBLIC_KEY_FILE = Some pub -> 0 < capacity pub ->
     sd_open B 1 PRIVATE_KEY_FILE = Some [] ->
     forall m, (k + 5 <= m)%nat ->
       fst (run L B m) = Spin 84 /\
       exists pre,
         log (snd (run L B m)) =
           pre ++ [SdOpen 1 PRIVATE_KEY_FILE true; Print "Loaded "; Print "0";
                   Print " bytes from "; Println PRIVATE_KEY_FILE;
                   Println "Failed to load private key!"]).
Proof.
  split; [|split].
  - intros call filename buffer buffer_size.
    destruct (sd_open B call filename) as [f|] eqn:E.
    + rewrite (loadKeyFromSD_some B _ _ _ _ _ E). cbn [fst].
      rewrite Z.ltb_lt. split.
      * intros H. exists f. split; [reflexivity|]. intros H0.
        rewrite H0 in H. unfold capacity in H. cbn in H. lia.
      * intros (c & Hc & Hw). injection Hc as <-.
        destruct (window f buffer_size); [contradiction|].
        unfold capacity. cbn [List.length]. lia.
    + rewrite (loadKeyFromSD_none B _ _ _ _ E). cbn [fst].
      split; [discriminate|].
      intros (c & Hc & _). discriminate.
  - intros k Hk Hsd Hpub m Hm.
    assert (E : exists s pre, run L B (3 + S k) = (Spin 79, s) /\
              log s = pre ++ [SdOpen 0 PUBLIC_KEY_FILE true; Print "Loaded "; Print "0";
                   Print " bytes from "; Println PUBLIC_KEY_FILE;
                   Println "Failed to load public key!"]).
    { eexists. eexists. split.
      - rewrite run_add, (run_ready L B _ Hk).
        forward. forward. rewrite Hsd.
        forward. rewrite (loadKeyFromSD_some B _ _ _ _ _ Hpub).
        cbn [Nat.iter]. reflexivity.
      - state_simpl. rewrite <- app_assoc. reflexivity. }
    destruct E as (s & pre & E & Hl).
    assert (Em : run L B m = (Spin 79, s)).
    { rewrite <- E. apply run_final; [now rewrite E | lia]. }
    rewrite Em. cbn [fst snd]. split; [reflexivity|]. exists pre. exact Hl.
  - intros k pub Hk Hsd Hpub Lpub Hpriv m Hm.
    assert (E : exists s pre, run L B (4 + S k) = (Spin 84, s) /\
              log s = pre ++ [SdOpen 1 PRIVATE_KEY_FILE true; Print "Loaded "; Print "0";
                   Print " bytes from "; Println PRIVATE_KEY_FILE;
                   Println "Failed to load private key!"]).
    { eexists. eexists. split.
      - rewrite run_add, (run_ready L B _ Hk).
        forward. forward. rewrite Hsd.
        forward. rewrite (loadKeyFromSD_some B _ _ _ _ _ Hpub), load_ok by lia.
        forward. rewrite (loadKeyFromSD_some B _ _ _ _ _ Hpriv).
        cbn [Nat.iter]. reflexivity.
      - state_simpl. rewrite <- app_assoc. reflexivity. }
    destruct E as (s & pre & E & Hl).
    assert (Em : run L B m = (Spin 84, s)).
    { rewrite <- E. apply run_final; [now rewrite E | lia]. }
    rewrite Em. cbn [fst snd]. split; [reflexivity|]. exists pre. exact Hl.
Qed.

(** C10. A key file longer than the 2048 byte buffer is loaded without
    complaint: [loadKeyFromSD] keeps its first 2048 bytes and answers
    true.  The parse call is then given those 2048 bytes together with
    the full size of the file, which is larger. *)
Theorem oversized_key_file (f : bytes) :
  KEY_BUF_SIZE < capacity f < 2 ^ 32 ->
  (forall call path, sd_open B call path = Some f ->
     loadKeyFromSD B call path (zeros KEY_BUF_SIZE) KEY_BUF_SIZE =
       (true, window f KEY_BUF_SIZE,
        [SdOpen call path true; Print "Loaded "; Print "2048";
         Print " bytes from "; Println path])) /\
  (sd_files B PUBLIC_KEY_FILE = Some f ->
   forall n key keylen r,
     In (ParsePublicKey key keylen r) (log (snd (run L B n))) ->
     key = window f KEY_BUF_SIZE /\ keylen = capacity f /\
     capacity key < keylen) /\
  (sd_files B PRIVATE_KEY_FILE = Some f ->
   forall n key keylen r,
     In (ParseKey key keylen r) (log (snd (run L B n))) ->
     key = window f KEY_BUF_SIZE /\ keylen = capacity f /\
     capacity key < keylen).
Proof.
  intros Hf. pose proof (capacity_nonneg f) as H0.
  assert (Hw : capacity (window f KEY_BUF_SIZE) = 2048)
    by (rewrite capacity_window; unfold KEY_BUF_SIZE in *; lia).
  split; [|split].
  - intros call path Hp. rewrite (loadKeyFromSD_some B _ _ _ _ _ Hp).
    rewrite Hw, overlay_full; [reflexivity|].
    rewrite Hw, capacity_zeros; unfold KEY_BUF_SIZE; lia.
  - intros Hp n key keylen r Hin.
    destruct (run_invariants L B n) as (_ & _ & (Hrec & _) & _).
    rewrite Forall_forall in Hrec.
    destruct (Hrec _ Hin) as (Hk & f0 & Hf0 & Hlen).
    rewrite (sd_open_file B _ _ _ Hf0) in Hp. injection Hp as <-.
    assert (Hkey : key = window f0 KEY_BUF_SIZE).
    { rewrite Hk, Hlen, (loaded_some B _ _ _ Hf0). apply window_loaded_file. lia. }
    rewrite Hkey, Hw, Hlen, size_t_small by lia.
    unfold KEY_BUF_SIZE in Hf. repeat split; lia.
  - intros Hp n key keylen r Hin.
    destruct (run_invariants L B n) as (_ & _ & (Hrec & _) & _).
    rewrite Forall_forall in Hrec.
    destruct (Hrec _ Hin) as (Hk & f0 & Hf0 & Hlen).
    rewrite (sd_open_file B _ _ _ Hf0) in Hp. injection Hp as <-.
    assert (Hkey : key = window f0 KEY_BUF_SIZE).
    { rewrite Hk, Hlen, (loaded_some B _ _ _ Hf0). apply window_loaded_file. lia. }
    rewrite Hkey, Hw, Hlen, size_t_small by lia.
    unfold KEY_BUF_SIZE in Hf. repeat split; lia.
Qed.

(** The sketch's own part in the handling of a ciphertext that does not
    decrypt: whatever the ciphertext array holds at line 163, a non-zero
    code from the library is reported and the sketch halts without
    printing a plaintext. *)
Lemma decrypt_failure_reported
  (s : state L) (r : Z) (out : bytes) (g : ctr_drbg_context L) :
  mbedtls_pk_decrypt L (pk_ctx_priv s) (window (encrypted s) (encrypted_length s))
    (encrypted_length s) MAX_MESSAGE_LENGTH (ctr_drbg s) = (r, out, g) ->
  r <> 0 ->
  fst (step L B (L163, s)) = Spin 169 /\
  log (snd (step L B (L163, s))) =
    log s ++ [Decrypt (window (encrypted s) (encrypted_length s))
                (encrypted_length s) (capacity (decrypted s))
                MAX_MESSAGE_LENGTH r (capacity out);
              Print "Decryption failed: ";
              Println (mbedtls_strerror L r ERROR_BUF_SIZE)].
Proof.
  intros E Hr. cbn [step fst snd]. rewrite E.
  apply Z.eqb_neq in Hr. rewrite Hr. state_simpl.
  split; [reflexivity|]. now rewrite <- app_assoc.
Qed.

End Claims.

(** ** The properties at concrete environments *)

Lemma good_card_ready : ready_at good_card 2.
Proof.
  split; [reflexivity|]. intros [|[|j]] Hj; [reflexivity | reflexivity | lia].
Qed.

Lemma good_card_public (i : nat) :
  sd_open good_card i PUBLIC_KEY_FILE = Some sample_public_der.
Proof. reflexivity. Qed.

Lemma good_card_private (i : nat) :
  sd_open good_card i PRIVATE_KEY_FILE = Some sample_private_der.
Proof. reflexivity. Qed.

Lemma scripted_fills_block (p : script) : encrypt_fills_block (scripted p).
Proof.
  intros k input ilen osize g out g' E. cbn in E. injection E as _ <- _.
  unfold pk_get_len, capacity. cbn [mbedtls_pk_get_bitlen scripted].
  rewrite repeat_length. apply Z2Nat.id. apply Z.div_pos; lia.
Qed.

(** The round trip on the sample card with the scripted library. *)
Lemma demo_round_trip_witness :
  keys_parse (scripted good_script) sample_public_der sample_private_der
    2048%N 2048%N /\
  round_trip (scripted good_script) 2048%N 2048%N 1%nat /\
  fst (run (scripted good_script) good_card 20) = L190 /\
  c_str (decrypted (snd (run (scripted good_script) good_card 20))) =
    list_byte_of_string message.
Proof.
  assert (Hp : keys_parse (scripted good_script) sample_public_der
                 sample_private_der 2048%N 2048%N) by (split; reflexivity).
  assert (Hr : round_trip (scripted good_script) 2048%N 2048%N 1%nat).
  { exists (repeat xc3 256), 2%nat, 3%nat.
    split; [reflexivity|]. split; [vm_compute; discriminate | reflexivity]. }
  split; [exact Hp|]. split; [exact Hr|].
  assert (Lpub : 0 < capacity sample_public_der <= KEY_BUF_SIZE)
    by (vm_compute; split; [reflexivity | discriminate]).
  assert (Lpriv : 0 < capacity sample_private_der <= KEY_BUF_SIZE)
    by (vm_compute; split; [reflexivity | discriminate]).
  destruct (demo_round_trip (scripted good_script) good_card
              sample_public_der sample_private_der 2 2048%N 2048%N 1%nat
              good_card_ready eq_refl good_card_public good_card_private
              Lpub Lpriv eq_refl
              Hp Hr 20%nat (le_n 20)) as (H1 & H2 & _).
  split; assumption.
Defined.

(** A 2048-bit key at line 144 of the sample run. *)
Lemma encrypted_length_is_256_witness :
  fst (run (scripted good_script) good_card 15) = L144 /\
  ret (snd (run (scripted good_script) good_card 16)) = 0 /\
  encrypted_length (snd (run (scripted good_script) good_card 16)) = 256.
Proof.
  assert (H1 : fst (run (scripted good_script) good_card 15) = L144)
    by (vm_compute; reflexivity).
  assert (H2 : mbedtls_pk_get_bitlen (scripted good_script)
                 (pk_ctx_pub (snd (run (scripted good_script) good_card 15)))
               = RSA_KEY_SIZE) by (vm_compute; reflexivity).
  assert (H3 : ret (snd (run (scripted good_script) good_card 16)) = 0)
    by (vm_compute; reflexivity).
  split; [exact H1|]. split; [exact H3|].
  destruct (encrypted_length_is_256 (scripted good_script) good_card 15
              (scripted_fills_block good_script) H1 H2 H3) as [_ H].
  apply H. apply le_n.
Defined.

(** C3: a public key file that does not parse.  The seed call is item 14
    of the history, the failed parse call item 21. *)
Lemma seed_precedes_parse_failure :
  ~ halts_before_any_crypto (scripted bad_public_key_script) good_card.
Proof.
  intros H.
  pose (lg := log (snd (run (scripted bad_public_key_script) good_card 13))).
  assert (E : lg = firstn 21 lg
                   ++ ParsePublicKey sample_public_der 294 (-15616)
                   :: skipn 22 lg) by (vm_compute; reflexivity).
  destruct (H 13%nat _ _ _ E eq_refl) as [_ H'].
  clear H. rename H' into H. rewrite Forall_forall in H.
  assert (Hin : In (Seed 0) (firstn 21 lg ++ skipn 22 lg)).
  { apply (nth_error_In _ 14). vm_compute. reflexivity. }
  specialize (H (Seed 0) Hin). discriminate H.
Qed.

Lemma key_failure_halts_witness :
  fst (run (scripted bad_public_key_script) good_card 13) = Spin 124 /\
  In (Seed 0)
    (firstn 21 (log (snd (run (scripted bad_public_key_script) good_card 13)))).
Proof.
  split; [vm_compute; reflexivity|].
  pose (lg := log (snd (run (scripted bad_public_key_script) good_card 13))).
  assert (E : lg = firstn 21 lg
                   ++ ParsePublicKey sample_public_der 294 (-15616)
                   :: skipn 22 lg) by (vm_compute; reflexivity).
  destruct (key_failure_halts (scripted bad_public_key_script) good_card 13
              _ _ _ E eq_refl) as (_ & _ & _ & H).
  exact H.
Defined.

(** C4: on a card whose third open fails, the open of line 105 returns
    a [File] that tests false; [setup] does not test it, so nothing is
    reported and no [while (1);] is entered: the run goes on to take the
    size of the unopened file.  The same failure inside [loadKeyFromSD]
    is reported and halts the sketch. *)
Lemma unchecked_open_goes_unreported :
  fst (run (scripted good_script) flaky_card 9) = L105 /\
  sd_open flaky_card 2 PUBLIC_KEY_FILE = None /\
  fst (run (scripted good_script) flaky_card 10) =
    Fault (SizeOfUnopenedFile PUBLIC_KEY_FILE) /\
  last (log (snd (run (scripted good_script) flaky_card 10))) (Print "") =
    SdOpen 2 PUBLIC_KEY_FILE false /\
  is_failure (SdOpen 2 PUBLIC_KEY_FILE false) = true.
Proof. repeat split; vm_compute; reflexivity. Qed.

Lemma key_buffers_loaded_once_witness :
  public_key_buf (snd (run (scripted good_script) good_card 20)) =
    loaded good_card 0 PUBLIC_KEY_FILE /\
  window (loaded good_card 0 PUBLIC_KEY_FILE) 294 = sample_public_der.
Proof.
  destruct (key_buffers_loaded_once (scripted good_script) good_card 20)
    as (H1 & _ & H3 & _).
  split; [exact H1|].
  destruct (H3 sample_public_der 294 0) as [Hk Hf].
  - apply (nth_error_In _ 21). vm_compute. reflexivity.
  - symmetry. exact Hk.
Defined.

(** C7: the sample run; its encrypt call (item 27 of the history)
    returns 0 with 256 bytes written into the 256 byte array. *)
Lemma ciphertext_fills_its_array :
  ~ capacity_exceeds_output (scripted good_script) good_card.
Proof.
  intros H.
  specialize (H 20%nat
                (Encrypt (list_byte_of_string message) 40 256 256 0 256)).
  cbn beta iota in H.
  assert (256 < 256) as Habs; [|lia].
  apply H; [|reflexivity].
  apply (nth_error_In _ 27). vm_compute. reflexivity.
Qed.

Lemma output_limit_is_capacity_witness :
  capacity (encrypted (snd (run (scripted good_script) good_card 20))) = 256 /\
  In (Encrypt (list_byte_of_string message) 40 256 256 0 256)
    (log (snd (run (scripted good_script) good_card 20))).
Proof.
  destruct (output_limit_is_capacity (scripted good_script) good_card 20)
    as (H1 & _ & H3).
  split; [exact H1|].
  assert (Hin : In (Encrypt (list_byte_of_string message) 40 256 256 0 256)
                  (log (snd (run (scripted good_script) good_card 20))))
    by (apply (nth_error_In _ 27); vm_compute; reflexivity).
  specialize (H3 _ Hin). exact Hin.
Defined.

(** C8: decryption succeeds with a 100 byte plaintext; the store of line
    173 then addresses [decrypted[100]], past the 100 byte array. *)
Lemma terminator_stored_past_the_array :
  fst (run (scripted full_plaintext_script) good_card 18) = L173 /\
  ret (snd (run (scripted full_plaintext_script) good_card 18)) = 0 /\
  decrypted_length (snd (run (scripted full_plaintext_script) good_card 18)) = 100 /\
  capacity (decrypted (snd (run (scripted full_plaintext_script) good_card 18))) = 100 /\
  fst (run (scripted full_plaintext_script) good_card 19) =
    Fault (StoreBeyondDecrypted 100).
Proof. repeat split; vm_compute; reflexivity. Qed.

Lemma loadKeyFromSD_true_iff_witness :
  fst (fst (loadKeyFromSD empty_key_card 0 PUBLIC_KEY_FILE
              (zeros KEY_BUF_SIZE) KEY_BUF_SIZE)) = false /\
  fst (run (scripted good_script) empty_key_card 6) = Spin 79.
Proof.
  destruct (loadKeyFromSD_true_iff (scripted good_script) empty_key_card)
    as (H1 & H2 & _).
  split.
  - destruct (fst (fst (loadKeyFromSD empty_key_card 0 PUBLIC_KEY_FILE
                          (zeros KEY_BUF_SIZE) KEY_BUF_SIZE))) eqn:E;
      [|reflexivity].
    apply H1 in E. destruct E as (c & Hc & Hw).
    injection Hc as <-. contradiction Hw. reflexivity.
  - apply (H2 2%nat good_card_ready eq_refl eq_refl). apply le_n.
Defined.

Lemma oversized_key_file_witness :
  fst (fst (loadKeyFromSD oversized_card 0 PUBLIC_KEY_FILE
              (zeros KEY_BUF_SIZE) KEY_BUF_SIZE)) = true /\
  In (ParsePublicKey (repeat x30 2048) 3000 0)
    (log (snd (run (scripted good_script) oversized_card 20))) /\
  capacity (repeat x30 2048) < 3000.
Proof.
  destruct (oversized_key_file (scripted good_script) oversized_card
              (repeat x30 3000)) as (H1 & H2 & _).
  - vm_compute. split; reflexivity.
  - split; [now rewrite (H1 0%nat PUBLIC_KEY_FILE eq_refl)|].
    assert (Hin : In (ParsePublicKey (repeat x30 2048) 3000 0)
                    (log (snd (run (scripted good_script) oversized_card 20))))
      by (apply (nth_error_In _ 21); vm_compute; reflexivity).
    split; [exact Hin|].
    destruct (H2 eq_refl 20%nat _ _ _ Hin) as (_ & _ & H). exact H.
Defined.

(** ** Further properties of the sketch *)

Section More.

Variable L : Mbedtls.
Variable B : Board.

(** *** The hex dump *)

Lemma hex2_unhex (b : byte) : unhex (hex2 b) = Some b.
Proof. destruct b; vm_compute; reflexivity. Qed.

(** X1. The hex dump of lines 154-158 can be read back: each item is one
    byte of the array written as two upper-case hexadecimal digits, and
    decoding the items in order gives the dumped bytes. *)
Theorem hex_dump_reads_back (a : bytes) (n : Z) :
  map dumped (hex_dump a n) = map Some (window a n).
Proof.
  unfold hex_dump. rewrite map_map. apply map_ext.
  intros b. apply hex2_unhex.
Qed.

(** *** The start-up wait *)

(** X2. As long as the console does not become ready the sketch stays
    in the wait of lines 46-48: nothing is printed, the card is not
    touched and no library call is made. *)
Theorem never_ready_blocks :
  (forall j, serial_ready B j = false) ->
  forall n, run L B n = (L46 n, initial_state L).
Proof. intros H n. apply run_waiting. intros j _. apply H. Qed.

(** *** Coming to rest *)

Lemma remaining_step (c : config L) :
  (remaining (fst c) <= 17)%nat ->
  (remaining (fst (step L B c)) <= pred (remaining (fst c)))%nat.
Proof.
  destruct c as [l s]. cbn [fst]. intros Hl.
  destruct (step L B (l, s)) as [l' s'] eqn:E.
  destruct l; cbn [remaining] in *; try lia; step_cases E;
    cbn [fst remaining]; lia.
Qed.

Lemma remaining_iter (j : nat) (c : config L) :
  (remaining (fst c) <= 17)%nat ->
  (remaining (fst (Nat.iter j (step L B) c)) <= remaining (fst c) - j)%nat.
Proof.
  intros Hc. induction j as [|j IH].
  { change (Nat.iter 0 (step L B) c) with c. lia. }
  change (Nat.iter (S j) (step L B) c)
    with (step L B (Nat.iter j (step L B) c)).
  pose proof (remaining_step (Nat.iter j (step L B) c)) as H.
  specialize (H ltac:(lia)). lia.
Qed.

Lemma remaining_final (l : label) : remaining l = 0%nat -> final l = true.
Proof. destruct l; cbn; auto; discriminate. Qed.

Lemma halt_inv_step (c : config L) : halt_inv c -> halt_inv (step L B c).
Proof.
  destruct c as [l s]. unfold halt_inv. cbn [fst]. intros H.
  destruct (step L B (l, s)) as [l' s'] eqn:E.
  destruct l; step_cases E; cbn [fst]; try exact I; try exact H;
    unfold halt_lines; cbn [In]; tauto.
Qed.

Lemma run_halt_inv (n : nat) : halt_inv (run L B n).
Proof. apply run_ind; [exact I | apply halt_inv_step]. Qed.

Lemma ready_run_final (k : nat) :
  ready_at B k -> final (fst (run L B (17 + S k))) = true.
Proof.
  intros Hk. apply remaining_final.
  rewrite run_add, (run_ready L B k Hk).
  pose proof (remaining_iter 17 (L51, initial_state L) (le_n 17)) as H.
  apply Nat.le_0_r. exact H.
Qed.

Lemma final_resting (n : nat) :
  final (fst (run L B n)) = true -> resting (fst (run L B n)).
Proof.
  intros Hf. pose proof (run_halt_inv n) as Hh. unfold halt_inv in Hh.
  destruct (fst (run L B n)); try discriminate Hf; cbn [resting]; auto.
Qed.

(** X3. Once the console is ready, [setup] is over after at most 18
    transitions: the sketch is then in [loop], in the [while (1);] of one
    of the eight failure branches, or at a fault, and it stays there. *)
Theorem setup_comes_to_rest (k : nat) :
  ready_at B k ->
  resting (fst (run L B (k + 18))) /\
  forall m, (k + 18 <= m)%nat -> run L B m = run L B (k + 18).
Proof.
  intros Hk. replace (k + 18)%nat with (17 + S k)%nat by lia.
  pose proof (ready_run_final k Hk) as Hf.
  split; [apply final_resting; exact Hf|].
  apply run_final. exact Hf.
Qed.

(** *** The order of the calls *)

Lemma calls_hex_dump (a : bytes) (n : Z) : flat_map kind_of (hex_dump a n) = [].
Proof.
  unfold hex_dump. induction (window a n) as [|b r IH]; [reflexivity|exact IH].
Qed.

Ltac count_calls H :=
  unfold calls in *; state_simpl; unfold displayRsaStatus;
  rewrite ?flat_map_app; cbn [flat_map kind_of app];
  rewrite ?flat_map_app, ?calls_hex_dump; cbn [flat_map kind_of app];
  rewrite ?app_nil_r.

Lemma order_inv_step (c : config L) : order_inv c -> order_inv (step L B c).
Proof.
  destruct c as [l s]. unfold order_inv. cbn [fst snd]. intros H.
  destruct (step L B (l, s)) as [l' s'] eqn:E.
  destruct l; step_cases E; try exact H; cbn [calls_made] in *;
    count_calls H; try rewrite H; try reflexivity.
  all: first [ exists 1%nat; reflexivity | exists 2%nat; reflexivity
             | exists 3%nat; reflexivity | exists 4%nat; reflexivity
             | exists 5%nat; reflexivity | exists 6%nat; reflexivity
             | exists 7%nat; reflexivity | exists 8%nat; reflexivity
             | exists 9%nat; reflexivity | exists 10%nat; reflexivity ].
Qed.

Lemma run_order_inv (n : nat) : order_inv (run L B n).
Proof. apply run_ind; [reflexivity | apply order_inv_step]. Qed.

(** X4. [setup] makes each of its ten calls to the card and to the
    library at most once and in the order of the source, SD.begin, the
    two loads, the seed, the two size queries, the two parses, encrypt,
    decrypt: the calls of a history are always a beginning of that
    sequence (nothing is retried, nothing is skipped). *)
Theorem calls_in_source_order (n : nat) :
  exists k, calls (log (snd (run L B n))) = firstn k call_order.
Proof.
  pose proof (run_order_inv n) as H. unfold order_inv in H.
  destruct (fst (run L B n)); try exact H; eauto.
Qed.


(** *** The terminator and the printed plaintext *)

Lemma store_app (a r : bytes) (x v : byte) :
  store (a ++ x :: r) (List.length a) v = a ++ v :: r.
Proof. induction a as [|y a IH]; cbn; [reflexivity | now rewrite IH]. Qed.

Lemma c_str_app_nul (a r : bytes) : c_str (a ++ x00 :: r) = c_str a.
Proof.
  induction a as [|y a IH]; cbn; [reflexivity|].
  destruct (Byte.eqb y x00); [reflexivity | now rewrite IH].
Qed.

Lemma c_str_terminated (out buf : bytes) :
  capacity out < capacity buf ->
  c_str (store (overlay out buf) (Z.to_nat (capacity out)) x00) = c_str out.
Proof.
  unfold capacity, overlay. intros H. rewrite Nat2Z.id.
  destruct (skipn (List.length out) buf) as [|x r] eqn:E.
  - apply (f_equal (@List.length byte)) in E.
    rewrite length_skipn in E. cbn in E. lia.
  - rewrite store_app. apply c_str_app_nul.
Qed.

(** X6. When decryption succeeds with fewer bytes than the decrypted
    array holds, the text printed after "Decrypted message: " is what
    the library wrote, up to its first zero byte; what the array held
    before has no part in it, and the sketch goes on to [loop]. *)
Theorem decrypted_text_printed
  (s : state L) (out : bytes) (g : ctr_drbg_context L) :
  mbedtls_pk_decrypt L (pk_ctx_priv s)
    (window (encrypted s) (encrypted_length s)) (encrypted_length s)
    MAX_MESSAGE_LENGTH (ctr_drbg s) = (0, out, g) ->
  capacity out < capacity (decrypted s) ->
  exists s',
    Nat.iter 3 (step L B) (L163, s) = (L190, s') /\
    c_str (decrypted s') = c_str out /\
    log s' =
      log s ++ [Decrypt (window (encrypted s) (encrypted_length s))
                  (encrypted_length s) (capacity (decrypted s))
                  MAX_MESSAGE_LENGTH 0 (capacity out);
                Print "Decrypted message: ";
                Println (string_of_list_byte (c_str out));
                Println "Demo completed!"].
Proof.
  intros E Hlt.
  assert (Hle : (capacity out <=? capacity (decrypted s)) = true)
    by (apply Z.leb_le; lia).
  assert (Hlt' : (capacity out <? capacity (overlay out (decrypted s))) = true)
    by (apply Z.ltb_lt; rewrite capacity_overlay; lia).
  eexists. split; [|split].
  - forward. rewrite E. cbn [Z.eqb]. rewrite Hle.
    forward. rewrite Hlt'.
    forward. cbn [Nat.iter]. reflexivity.
  - state_simpl. now apply c_str_terminated.
  - state_simpl. rewrite c_str_terminated by exact Hlt.
    now rewrite <- app_assoc.
Qed.

(** *** What [loadKeyFromSD] does to the buffer *)

(** X7. [loadKeyFromSD] never changes the size of a buffer that is at
    least [buffer_size] long: it replaces the first [n] bytes by the
    first [n] bytes of the file, where [n] is the smaller of the file
    size and [buffer_size], leaves every later byte as it was (nothing is
    cleared or terminated), and answers whether [n] is positive; when
    the open fails, [n] is zero. *)
Theorem loadKeyFromSD_frame
  (call : nat) (filename : string) (buffer : bytes) (buffer_size : Z) :
  0 <= buffer_size <= capacity buffer ->
  let res := loadKeyFromSD B call filename buffer buffer_size in
  let n := match sd_open B call filename with
           | Some f => Z.min (capacity f) buffer_size
           | None => 0
           end in
  capacity (snd (fst res)) = capacity buffer /\
  window (snd (fst res)) n =
    match sd_open B call filename with
    | Some f => window f n
    | None => []
    end /\
  skipn (Z.to_nat n) (snd (fst res)) = skipn (Z.to_nat n) buffer /\
  fst (fst res) = (0 <? n).
Proof.
  intros Hb. cbn zeta. destruct (sd_open B call filename) as [f|] eqn:E.
  - rewrite (loadKeyFromSD_some B _ _ _ _ _ E). cbn [fst snd].
    pose proof (capacity_nonneg f) as Hf.
    assert (Hn : capacity (window f buffer_size) = Z.min (capacity f) buffer_size)
      by (rewrite capacity_window; lia).
    assert (Hw : window f (Z.min (capacity f) buffer_size) = window f buffer_size).
    { unfold window. destruct (Z_le_gt_dec (capacity f) buffer_size).
      - rewrite Z.min_l by lia. unfold capacity in *.
        rewrite !firstn_all2 by lia. reflexivity.
      - now rewrite Z.min_r by lia. }
    rewrite <- Hn. repeat split.
    + apply capacity_overlay. lia.
    + rewrite window_overlay, Hn. symmetry. exact Hw.
    + unfold overlay, capacity. rewrite Nat2Z.id.
      rewrite skipn_app, skipn_all, Nat.sub_diag. reflexivity.
  - rewrite (loadKeyFromSD_none B _ _ _ _ E). cbn [fst snd].
    repeat split.
Qed.

(** *** A key file that fits the buffer *)


(** *** Faults *)




(** *** No card *)

(** X10. When [SD.begin] fails, the sketch prints the banner and the
    failure, halts at line 56, and never opens a file or calls the
    library. *)
Theorem sd_begin_failure (k : nat) :
  ready_at B k -> sd_begin B = false ->
  forall m, (k + 3 <= m)%nat ->
    fst (run L B m) = Spin 56 /\
    log (snd (run L B m)) =
      [Println banner; SdBegin false;
       Println "SD card initialization failed!"].
Proof.
  intros Hk Hsd m Hm.
  assert (E : run L B (2 + S k) =
              (Spin 56,
               emit L (emit L (initial_state L) [Println banner])
                 [SdBegin false; Println "SD card initialization failed!"])).
  { rewrite run_add, (run_ready L B k Hk).
    forward. forward. rewrite Hsd. cbn [Nat.iter]. reflexivity. }
  assert (Em : run L B m = run L B (2 + S k)).
  { apply run_final; [now rewrite E | lia]. }
  rewrite Em, E. split; reflexivity.
Qed.

(** *** Failures that are tested *)

(** X11. Every failed call whose result [setup] tests (SD.begin, the
    open inside [loadKeyFromSD], seed, the two parses, encrypt, decrypt)
    is fatal: the history goes on with exactly the report of that
    failure, for a library call the text [mbedtls_strerror] gives for the
    returned code, and the sketch is for good in the [while (1);] of that
    branch. *)
Theorem tested_failure_is_fatal
  (n : nat) (pre post : list event) (ev : event) :
  log (snd (run L B n)) = pre ++ ev :: post ->
  is_failure ev = true -> checked ev = true ->
  post = report L ev /\
  fst (run L B n) = Spin (halt_line ev) /\
  forall m, (n <= m)%nat -> run L B m = run L B n.
Proof. apply checked_failure_halted. Qed.

(** *** From encrypt to decrypt *)

(** X12. After a successful encryption that fits the array, the hex
    dump shows exactly the bytes the library wrote, and the decrypt call
    finds at the head of the array exactly those bytes, with their
    length and with the generator as the encryption left it. *)
Theorem ciphertext_handed_on
  (s : state L) (ct : bytes) (g : ctr_drbg_context L) :
  mbedtls_pk_encrypt L (pk_ctx_pub s) (list_byte_of_string message)
    (strlen message) MAX_ENCRYPTED_LENGTH (ctr_drbg s) = (0, ct, g) ->
  capacity ct <= capacity (encrypted s) ->
  exists s',
    Nat.iter 2 (step L B) (L144, s) = (L163, s') /\
    window (encrypted s') (encrypted_length s') = ct /\
    encrypted_length s' = capacity ct /\
    ctr_drbg s' = g /\ pk_ctx_priv s' = pk_ctx_priv s /\
    log s' =
      log s ++ Encrypt (list_byte_of_string message) (strlen message)
                 (capacity (encrypted s)) MAX_ENCRYPTED_LENGTH 0 (capacity ct)
            :: Print "Encrypted message (hex): "
            :: map (fun b => Print (hex2 b)) ct
            ++ [Println ""; Println "Decrypting..."].
Proof.
  intros E Hle. apply Z.leb_le in Hle.
  eexists. split.
  { forward. rewrite E. cbn [Z.eqb]. rewrite Hle.
    forward. cbn [Nat.iter]. reflexivity. }
  state_simpl. split; [apply window_overlay|].
  split; [reflexivity|]. split; [reflexivity|]. split; [reflexivity|].
  unfold hex_dump. rewrite window_overlay. now rewrite <- app_assoc.
Qed.

(** *** Printing the decrypted array *)





End More.

(** *** The further properties at concrete environments *)

Lemma never_ready_blocks_witness :
  fst (run (scripted good_script) unattended_board 50) = L46 50 /\
  log (snd (run (scripted good_script) unattended_board 50)) = [].
Proof.
  rewrite (never_ready_blocks (scripted good_script) unattended_board
             (fun j => eq_refl) 50).
  split; reflexivity.
Defined.

Lemma setup_comes_to_rest_witness :
  resting (fst (run (scripted good_script) good_card (2 + 18))) /\
  forall m, (2 + 18 <= m)%nat ->
    run (scripted good_script) good_card m =
    run (scripted good_script) good_card (2 + 18).
Proof.
  exact (setup_comes_to_rest (scripted good_script) good_card 2
           good_card_ready).
Defined.


Lemma decrypted_text_printed_witness :
  exists s',
    Nat.iter 3 (step (scripted good_script) good_card)
      (L163, snd (run (scripted good_script) good_card 17)) = (L190, s') /\
    c_str (decrypted s') = c_str (list_byte_of_string message).
Proof.
  assert (H1 : mbedtls_pk_decrypt (scripted good_script)
                 (pk_ctx_priv (snd (run (scripted good_script) good_card 17)))
                 (window (encrypted (snd (run (scripted good_script) good_card 17)))
                    (encrypted_length
                       (snd (run (scripted good_script) good_card 17))))
                 (encrypted_length (snd (run (scripted good_script) good_card 17)))
                 MAX_MESSAGE_LENGTH
                 (ctr_drbg (snd (run (scripted good_script) good_card 17)))
               = (0, list_byte_of_string message, 3%nat))
    by (vm_compute; reflexivity).
  assert (H2 : capacity (list_byte_of_string message)
               < capacity (decrypted
                             (snd (run (scripted good_script) good_card 17))))
    by (vm_compute; reflexivity).
  destruct (decrypted_text_printed (scripted good_script) good_card _ _ _
              H1 H2) as (s' & E1 & E2 & _).
  exists s'. split; assumption.
Defined.

Lemma loadKeyFromSD_frame_witness :
  0 <= KEY_BUF_SIZE <= capacity (zeros KEY_BUF_SIZE) /\
  capacity (snd (fst (loadKeyFromSD good_card 0 PUBLIC_KEY_FILE
                        (zeros KEY_BUF_SIZE) KEY_BUF_SIZE))) =
    capacity (zeros KEY_BUF_SIZE).
Proof.
  assert (H : 0 <= KEY_BUF_SIZE <= capacity (zeros KEY_BUF_SIZE))
    by (vm_compute; split; discriminate).
  split; [exact H|].
  exact (proj1 (loadKeyFromSD_frame good_card 0 PUBLIC_KEY_FILE
                  (zeros KEY_BUF_SIZE) KEY_BUF_SIZE H)).
Defined.




Lemma board_without_card_ready : ready_at board_without_card 2.
Proof.
  split; [reflexivity|]. intros [|[|j]] Hj; [reflexivity | reflexivity | lia].
Qed.

Lemma sd_begin_failure_witness :
  fst (run (scripted good_script) board_without_card 5) = Spin 56 /\
  log (snd (run (scripted good_script) board_without_card 5)) =
    [Println banner; SdBegin false; Println "SD card initialization failed!"].
Proof.
  exact (sd_begin_failure (scripted good_script) board_without_card 2
           board_without_card_ready eq_refl 5 (le_n 5)).
Defined.

Lemma tested_failure_is_fatal_witness :
  fst (run (scripted bad_public_key_script) good_card 13) = Spin 124 /\
  skipn 22 (log (snd (run (scripted bad_public_key_script) good_card 13))) =
    [Print "Failed to parse public key: "; Println "mbedtls error -15616"].
Proof.
  pose (lg := log (snd (run (scripted bad_public_key_script) good_card 13))).
  assert (E : lg = firstn 21 lg
                   ++ ParsePublicKey sample_public_der 294 (-15616)
                   :: skipn 22 lg) by (vm_compute; reflexivity).
  destruct (tested_failure_is_fatal (scripted bad_public_key_script) good_card
              13 _ _ _ E eq_refl eq_refl) as (H1 & H2 & _).
  split; [exact H2 | exact H1].
Defined.

Lemma ciphertext_handed_on_witness :
  exists s',
    Nat.iter 2 (step (scripted good_script) good_card)
      (L144, snd (run (scripted good_script) good_card 15)) = (L163, s') /\
    window (encrypted s') (encrypted_length s') = repeat xc3 256.
Proof.
  assert (H1 : mbedtls_pk_encrypt (scripted good_script)
                 (pk_ctx_pub (snd (run (scripted good_script) good_card 15)))
                 (list_byte_of_string message) (strlen message)
                 MAX_ENCRYPTED_LENGTH
                 (ctr_drbg (snd (run (scripted good_script) good_card 15)))
               = (0, repeat xc3 256, 2%nat)) by (vm_compute; reflexivity).
  assert (H2 : capacity (repeat xc3 256)
               <= capacity (encrypted
                              (snd (run (scripted good_script) good_card 15))))
    by (vm_compute; discriminate).
  destruct (ciphertext_handed_on (scripted good_script) good_card _ _ _ H1 H2)
    as (s' & E1 & E2 & _).
  exists s'. split; assumption.
Defined.

